(** * Pattern matching and replacement of caffe2's [Transform]

    A shallow embedding of [caffe2/core/transform.cc]: the backtracking
    matcher ([PatternMatch], [TryNeighbors], [PatternMatchHelper]) and the
    apply phase ([ReplacePattern]), followed by the properties that the
    specification states about them.

    Conventions.
    - A C++ [int] is a [Z].  The only arithmetic of the source is [i++]
      below [graph.size()] and [subgraph.back() + 1] with
      [subgraph.back() < graph.size()], so no wrap-around arises as long as
      [graph.size()] fits an [int].
    - A [std::vector] is a [list]; [v.at(i)] throws [out_of_range] outside
      of the vector, [v[i]], [v[i] = b] and [v.pop_back()] outside of it
      are undefined behaviour and reported as such.
    - A [std::map<int, std::vector<string>>] is the list of its entries in
      iteration order (ascending key).
    - A function that receives [std::vector<int>*] threads a [State]. *)

From Stdlib Require Import String.
From Stdlib Require Import List ZArith Lia Bool Sorted Relations.
Import ListNotations.
Local Open Scope Z_scope.

Set Implicit Arguments.

(** ** Failures and results *)

Inductive failure : Type :=
| out_of_range          (* std::out_of_range of vector::at *)
| enforce_error         (* CAFFE_ENFORCE *)
| not_implemented       (* CAFFE_NOT_IMPLEMENTED *)
| replace_failed        (* CAFFE_THROW("Replace failed!") *)
| undefined_behaviour.  (* unchecked access outside of a vector *)

(** [OutOfFuel] belongs to the model only: the recursion of
    [PatternMatchHelper] is driven by a counter. *)
Inductive result (A : Type) : Type :=
| Ok (a : A)
| Throw (e : failure)
| OutOfFuel.

Arguments Throw {A} e.
Arguments OutOfFuel {A}.

Definition bind {A B : Type} (m : result A) (k : A -> result B) : result B :=
  match m with
  | Ok a => k a
  | Throw e => Throw e
  | OutOfFuel => OutOfFuel
  end.

Notation "x <- m ;; k" := (bind m (fun x => k))
  (at level 61, m at next level, right associativity).

(** A [for] loop whose body threads a state and may throw. *)
Fixpoint for_each {A S : Type} (l : list A) (body : A -> S -> result S) (s : S)
  : result S :=
  match l with
  | [] => Ok s
  | a :: l' => s' <- body a s ;; for_each l' body s'
  end.

(** The values taken by [i] in [for (int i = lo; i < hi; i++)]. *)
Definition int_range (lo hi : Z) : list Z :=
  map (fun k => lo + Z.of_nat k) (seq 0 (Z.to_nat (hi - lo))).

(** ** Vectors *)

Definition vector_at {A : Type} (v : list A) (i : Z) : result A :=
  if i <? 0 then Throw out_of_range
  else match nth_error v (Z.to_nat i) with
       | Some a => Ok a
       | None => Throw out_of_range
       end.

Definition vector_index {A : Type} (v : list A) (i : Z) : result A :=
  if i <? 0 then Throw undefined_behaviour
  else match nth_error v (Z.to_nat i) with
       | Some a => Ok a
       | None => Throw undefined_behaviour
       end.

Fixpoint replace_nth {A : Type} (v : list A) (n : nat) (a : A) : list A :=
  match v, n with
  | [], _ => []
  | _ :: v', O => a :: v'
  | b :: v', S n' => b :: replace_nth v' n' a
  end.

Definition vector_set {A : Type} (v : list A) (i : Z) (a : A) : result (list A) :=
  if (0 <=? i) && (i <? Z.of_nat (length v))
  then Ok (replace_nth v (Z.to_nat i) a)
  else Throw undefined_behaviour.

(** [std::find(v.begin(), v.end(), j) != v.end()] *)
Definition contains (v : list Z) (j : Z) : bool := existsb (Z.eqb j) v.

(** ** The graph, as far as the transform needs it *)

(** Modelled from the spec: [struct Node] of graph.h is not among the
    sources; section 3 of the specification gives a node an active flag
    and two neighbour maps from a node index to the labels of the edges. *)
Record Node : Type := mkNode {
  active : bool;
  parents : list (Z * list string);
  children : list (Z * list string)
}.

(** Modelled from the spec: [class Graph] of graph.h is not among the
    sources; section 6 of the specification lists what the core requires
    of it, and these operations are taken as parameters. *)
Class GraphOps (Graph : Type) : Type := {
  size : Graph -> nat;
  node : Graph -> Z -> Node;
  is_node_active : Graph -> Z -> bool
}.

(** ** The transform: a strategy and three rules *)

(** Modelled from the spec: [enum PatternMatchType] of transform.h is not
    among the sources; the three names are those the source compares
    [pattern_match_type_] with, and [OTHER_MATCH_TYPE] stands for any other
    value, which reaches the final [else]. *)
Inductive PatternMatchType : Type :=
| CONNECTED_SUBGRAPH
| SORTED_WRT_EXECUTION_ORDER
| GENERAL
| OTHER_MATCH_TYPE.

(** The virtual members of [class Transform]. [ReplaceRule] receives
    [Graph*]: it returns its verdict and the graph it leaves. *)
Record Transform (Graph : Type) : Type := mkTransform {
  pattern_match_type_ : PatternMatchType;
  PatternRule : Graph -> list Z -> Z -> bool;
  ValidatorRule : Graph -> list Z -> bool;
  ReplaceRule : list Z -> Graph -> bool * Graph
}.

(** ** The state of one expansion *)

(** [subgraph] and [best_subgraph] are the two vectors that
    [PatternMatchHelper] receives by pointer.  [visited] is a ghost field:
    the working subgraphs at the successive entries of
    [PatternMatchHelper], in exploration order; nothing reads it. *)
Record State : Type := mkState {
  subgraph : list Z;
  best_subgraph : list Z;
  visited : list (list Z)
}.

Definition push_back (j : Z) (st : State) : State :=
  mkState (subgraph st ++ [j]) (best_subgraph st) (visited st).

Definition pop_back (st : State) : result State :=
  match subgraph st with
  | [] => Throw undefined_behaviour
  | _ :: _ => Ok (mkState (removelast (subgraph st)) (best_subgraph st) (visited st))
  end.

Definition log_visit (st : State) : State :=
  mkState (subgraph st) (best_subgraph st) (visited st ++ [subgraph st]).

Definition enforce (b : bool) : result unit :=
  if b then Ok tt else Throw enforce_error.

Section Matcher.

Context {Graph : Type} `{GraphOps Graph}.
Variable T : Transform Graph.
Variable graph : Graph.

(** Lines 78-81: the best subgraph is replaced by the working one when
    the latter is valid and strictly larger. *)
Definition update_best (st : State) : State :=
  if ValidatorRule T graph (subgraph st)
     && (length (best_subgraph st) <? length (subgraph st))%nat
  then mkState (subgraph st) (subgraph st) (visited st)
  else st.

Section Expansion.

Variable matched : list bool.

(** [if (!matched.at(j) && PatternRule(graph, subgraph, j))
       { push_back(j); PatternMatchHelper(...); pop_back(); }]
    with the recursive call [rec] left open. *)
Definition try_append (rec : State -> result State) (j : Z) (st : State)
  : result State :=
  m <- vector_at matched j ;;
  if negb m && PatternRule T graph (subgraph st) j
  then st1 <- rec (push_back j st) ;; pop_back st1
  else Ok st.

(** The same behind the test
    [std::find(subgraph.begin(), subgraph.end(), j) == subgraph.end()]
    of lines 56 and 139. *)
Definition try_absent (rec : State -> result State) (j : Z) (st : State)
  : result State :=
  if negb (contains (subgraph st) j) then try_append rec j st else Ok st.

(** Lines 47-64: the entries of the neighbour map in the order of their
    keys; [j] is [edge.first]. *)
Definition TryNeighbors (rec : State -> result State)
    (neighbors : list (Z * list string)) (st : State) : result State :=
  for_each neighbors (fun edge st' => try_absent rec (fst edge) st') st.

(** Lines 92-110: one iteration of the loop over the positions of the
    working subgraph. *)
Definition connected_step (rec : State -> result State) (size_before : nat)
    (i : Z) (st1 : State) : result State :=
  x <- vector_index (subgraph st1) i ;;
  st2 <- TryNeighbors rec (children (node graph x)) st1 ;;
  _ <- enforce (size_before =? length (subgraph st2))%nat ;;
  st3 <- TryNeighbors rec (parents (node graph x)) st2 ;;
  _ <- enforce (size_before =? length (subgraph st3))%nat ;;
  Ok st3.

(** Lines 66-151, the body of [PatternMatchHelper]; [rec] is the
    recursive call, also the one inside [TryNeighbors].
    In the first branch the two [CAFFE_ENFORCE] make
    [subgraph.size()] equal to [size_before] whenever the loop test is
    evaluated, so [i] ranges over [0 .. size_before - 1]. *)
Definition PatternMatchHelper_body (rec : State -> result State)
    (st0 : State) : result State :=
  let st := update_best (log_visit st0) in
  let size_before := length (subgraph st) in
  match pattern_match_type_ T with
  | CONNECTED_SUBGRAPH =>
      for_each (int_range 0 (Z.of_nat size_before))
        (connected_step rec size_before) st
  | SORTED_WRT_EXECUTION_ORDER =>
      let start_idx :=
        if (0 <? length (subgraph st))%nat then last (subgraph st) 0 + 1
        else 0 in
      for_each (int_range start_idx (Z.of_nat (size graph)))
        (try_append rec) st
  | GENERAL =>
      for_each (int_range 0 (Z.of_nat (size graph))) (try_absent rec) st
  | OTHER_MATCH_TYPE => Throw not_implemented
  end.

(** [PatternMatchHelper] itself: the body closed by recursion, at most
    [fuel] calls deep. *)
Fixpoint PatternMatchHelper (fuel : nat) (st : State) : result State :=
  match fuel with
  | O => OutOfFuel
  | S fuel' => PatternMatchHelper_body (PatternMatchHelper fuel') st
  end.

(** Lines 25-36 of [PatternMatch]: the expansion from start index
    [idx], returning the state in which the loop body goes on. *)
Definition expand_start (fuel : nat) (idx : Z) : result State :=
  let st := mkState [] [] [] in
  m <- vector_at matched idx ;;
  if negb m && PatternRule T graph (subgraph st) idx
  then st1 <- PatternMatchHelper fuel (push_back idx st) ;; pop_back st1
  else Ok st.

End Expansion.

(** Lines 39-41: [for (x : best_subgraph) matched[x] = true]. *)
Definition mark_matched (matched : list bool) (best : list Z)
  : result (list bool) :=
  for_each best (fun x m => vector_set m x true) matched.

(** Lines 22-43: one iteration of the loop of [PatternMatch] over [idx]. *)
Definition PatternMatch_iter (fuel : nat) (idx : Z)
    (acc : list bool * list (list Z)) : result (list bool * list (list Z)) :=
  let matched := fst acc in
  let matches := snd acc in
  st <- expand_start matched fuel idx ;;
  if (0 <? length (best_subgraph st))%nat
  then let matches' := matches ++ [best_subgraph st] in
       matched' <- mark_matched matched (best_subgraph st) ;;
       Ok (matched', matches')
  else Ok acc.

(** Lines 16-22: the registry, all false, and no match at first; then the
    iterations over the start indices below [k]. *)
Definition PatternMatch_scan (fuel : nat) (k : Z)
  : result (list bool * list (list Z)) :=
  for_each (int_range 0 k) (PatternMatch_iter fuel)
    (repeat false (size graph), []).

(** Lines 14-45, with the counter of the recursion as a parameter. *)
Definition PatternMatch_fuel (fuel : nat) : result (list (list Z)) :=
  acc <- PatternMatch_scan fuel (Z.of_nat (size graph)) ;;
  Ok (snd acc).

(** A working subgraph holds distinct indices of the graph, so the
    recursion is never deeper than [graph.size()]
    (see [PatternMatch_fuel_enough]). *)
Definition PatternMatch : result (list (list Z)) :=
  PatternMatch_fuel (S (size graph)).

(** ** The apply phase *)

(** Lines 158-163: the flag is cleared by every inactive member; the
    loop has no [break]. *)
Definition is_match_active (g : Graph) (match_ : list Z) : bool :=
  fold_left (fun flag idx => if negb (is_node_active g idx) then false else flag)
    match_ true.

End Matcher.

(** What [ReplacePattern] leaves behind: the graph (mutated in place, also
    when it throws), the exception if any, and, as a ghost field, the
    matches that [ReplaceRule] was called on, in call order. *)
Record Outcome (Graph : Type) : Type := mkOutcome {
  graph_after : Graph;
  thrown : option failure;
  invoked : list (list Z)
}.

Section Apply.

Context {Graph : Type} `{GraphOps Graph}.
Variable T : Transform Graph.

(** Lines 153-170: the loop over the matches from graph [g], after the
    calls [calls] of [ReplaceRule]. *)
Fixpoint ReplacePattern_from (matches : list (list Z)) (g : Graph)
    (calls : list (list Z)) : Outcome Graph :=
  match matches with
  | [] => mkOutcome g None calls
  | match_ :: rest =>
      if is_match_active g match_
      then let r := ReplaceRule T match_ g in
           if fst r
           then ReplacePattern_from rest (snd r) (calls ++ [match_])
           else mkOutcome (snd r) (Some replace_failed) (calls ++ [match_])
      else ReplacePattern_from rest g calls
  end.

Definition ReplacePattern (matches : list (list Z)) (g : Graph)
  : Outcome Graph :=
  ReplacePattern_from matches g [].

End Apply.

(** Modelled from the spec: the constructor [Graph(const NetDef&)] and
    [Graph::GetNetDef] of graph.cc are not among the sources; section 6 of
    the specification names them as the construction and the export of the
    graph.  They are taken as parameters, and either may throw. *)
Class NetOps (NetDef Graph : Type) : Type := {
  Graph_of_NetDef : NetDef -> result Graph;
  GetNetDef : Graph -> result NetDef
}.

Section Driver.

Context {NetDef Graph : Type} `{GraphOps Graph} `{NetOps NetDef Graph}.
Variable T : Transform Graph.

(** Lines 174-179: an exception of [ReplacePattern] leaves [ApplyTo]. *)
Definition ApplyTo (orig_net : NetDef) : result NetDef :=
  g <- Graph_of_NetDef orig_net ;;
  matches <- PatternMatch T g ;;
  let out := ReplacePattern T matches g in
  match thrown out with
  | Some e => Throw e
  | None => GetNetDef (graph_after out)
  end.

End Driver.

Unset Implicit Arguments.

(** * Specification vocabulary *)

(** [post D Q r]: [r] is a value that satisfies [Q], or an exception; the
    counter may run out only if [D] holds.  [post False] is total
    correctness up to exceptions, [post True] partial correctness. *)
Definition post {A : Type} (D : Prop) (Q : A -> Prop) (r : result A) : Prop :=
  match r with
  | Ok a => Q a
  | Throw _ => True
  | OutOfFuel => D
  end.

(** [r'] is [r] unless [r] ran out of fuel. *)
Definition agrees {A : Type} (r r' : result A) : Prop :=
  r <> OutOfFuel -> r' = r.

Section Reachability.

Context {Graph : Type} `{GraphOps Graph}.
Variable T : Transform Graph.
Variable graph : Graph.

(** [j] is a key of the children or of the parents of [x]. *)
Definition adjacent (x j : Z) : Prop :=
  In j (map fst (children (node graph x)))
  \/ In j (map fst (parents (node graph x))).

(** The function that [update_best] folds over the visited subgraphs. *)
Definition choose (best s : list Z) : list Z :=
  if ValidatorRule T graph s && (length best <? length s)%nat then s else best.

Section Registry.

Variable matched : list bool.

(** The tests that guard the append of [j] to the working subgraph
    [sub], strategy by strategy. *)
Definition strategy_candidate (sub : list Z) (j : Z) : Prop :=
  match pattern_match_type_ T with
  | CONNECTED_SUBGRAPH => ~ In j sub /\ exists x, In x sub /\ adjacent x j
  | SORTED_WRT_EXECUTION_ORDER =>
      j < Z.of_nat (size graph) /\ (sub = [] \/ last sub 0 < j)
  | GENERAL => ~ In j sub /\ 0 <= j < Z.of_nat (size graph)
  | OTHER_MATCH_TYPE => False
  end.

Definition candidate (sub : list Z) (j : Z) : Prop :=
  vector_at matched j = Ok false
  /\ PatternRule T graph sub j = true
  /\ strategy_candidate sub j.

(** The working subgraphs that the expansion of [sub] goes through. *)
Inductive extends (sub : list Z) : list Z -> Prop :=
| extends_refl : extends sub sub
| extends_step (s : list Z) (j : Z) :
    extends sub s -> candidate s j -> extends sub (s ++ [j]).

(** [st'] comes from [st] by an exploration below [sub] that has put
    the working subgraph back to [sub]. *)
Definition grown (sub : list Z) (st st' : State) : Prop :=
  subgraph st' = sub
  /\ exists vs, visited st' = visited st ++ vs
                /\ Forall (extends sub) vs
                /\ best_subgraph st' = fold_left choose vs (best_subgraph st).

Definition in_graph (x : Z) : Prop := 0 <= x < Z.of_nat (size graph).

Definition wf_subgraph (sub : list Z) : Prop :=
  NoDup sub
  /\ Forall in_graph sub
  /\ (pattern_match_type_ T = SORTED_WRT_EXECUTION_ORDER ->
      StronglySorted Z.lt sub).

(** The start index passes the test of line 32. *)
Definition started (idx : Z) : Prop :=
  vector_at matched idx = Ok false /\ PatternRule T graph [] idx = true.

Definition expanded (idx : Z) (st : State) : Prop :=
  subgraph st = []
  /\ Forall (extends [idx]) (visited st)
  /\ best_subgraph st = fold_left choose (visited st) []
  /\ (visited st <> [] -> started idx).

End Registry.

(** [m] was recorded for a start index below [k]: it was reached from
    that index under the registry of that time, and it is valid. *)
Definition recorded (k : Z) (m : list Z) : Prop :=
  exists (matched0 : list bool) (idx : Z),
    length matched0 = size graph
    /\ 0 <= idx < k
    /\ started matched0 idx
    /\ extends matched0 [idx] m
    /\ ValidatorRule T graph m = true.

Definition scan_inv (k : Z) (acc : list bool * list (list Z)) : Prop :=
  length (fst acc) = size graph
  /\ (forall x, vector_at (fst acc) x = Ok true <-> In x (concat (snd acc)))
  /\ NoDup (concat (snd acc))
  /\ Forall (recorded k) (snd acc)
  /\ StronglySorted Z.lt (map (hd 0) (snd acc)).

(** Two members of [m] are linked when one is a child or a parent of
    the other. *)
Definition linked (m : list Z) (u v : Z) : Prop :=
  In u m /\ In v m /\ adjacent u v.

(** [m] is connected: any two members are joined by a path of links,
    taken in either direction, that stays inside [m]. *)
Definition connected (m : list Z) : Prop :=
  forall a b, In a m -> In b m -> clos_refl_sym_trans Z (linked m) a b.

(** Every element but the first is adjacent to an earlier one. *)
Definition attached (m : list Z) : Prop :=
  forall pre x post,
    m = pre ++ x :: post -> pre <> [] -> exists y, In y pre /\ adjacent y x.

End Reachability.

Section Rewriting.

Context {Graph : Type} `{GraphOps Graph}.
Variable T : Transform Graph.

(** The graph that the apply phase leaves is the initial one rewritten
    by the calls of [ReplaceRule], in call order. *)
Definition rewritten (g : Graph) (calls : list (list Z)) : Graph :=
  fold_left (fun g' m => snd (ReplaceRule T m g')) calls g.

End Rewriting.

(** [r] throws nothing but exceptions in [E]. *)
Definition throws_only {A : Type} (E : failure -> Prop) (r : result A) : Prop :=
  match r with
  | Throw e => E e
  | _ => True
  end.

Section Failures.

Context {Graph : Type} `{GraphOps Graph}.
Variable T : Transform Graph.
Variable graph : Graph.

(** Some node of the graph has a neighbour key that is no node index. *)
Definition dangling : Prop :=
  exists x j, in_graph graph x /\ adjacent graph x j /\ ~ in_graph graph j.

(** All neighbour keys of the nodes of the graph are node indices. *)
Definition closed : Prop :=
  forall x j, in_graph graph x -> adjacent graph x j -> in_graph graph j.

(** The two ways in which the search can throw. *)
Definition search_failure (e : failure) : Prop :=
  (e = out_of_range
   /\ pattern_match_type_ T = CONNECTED_SUBGRAPH /\ dangling)
  \/ (e = not_implemented /\ pattern_match_type_ T = OTHER_MATCH_TYPE).

End Failures.

(** * A chain of three nodes

    The graph 0 -> 1 -> 2 of the scenarios of the specification, held in a
    list of nodes. *)

Definition absent_node : Node := mkNode false [] [].

#[export] Instance ListGraph : GraphOps (list Node) := {|
  size := fun g => length g;
  node := fun g i => nth (Z.to_nat i) g absent_node;
  is_node_active := fun g i => active (nth (Z.to_nat i) g absent_node)
|}.

Definition chain : list Node :=
  [ mkNode true [] [(1, ["a"%string])];
    mkNode true [(0, ["a"%string])] [(2, ["b"%string])];
    mkNode true [(1, ["b"%string])] [] ].

(** [node.active = false] for the members of a match. *)
Definition deactivate (match_ : list Z) (g : list Node) : list Node :=
  fold_left
    (fun g' idx =>
       replace_nth g' (Z.to_nat idx)
         (mkNode false (parents (node g' idx)) (children (node g' idx))))
    match_ g.

(** Accepts every candidate, validates subgraphs of [n] nodes or more,
    and replaces a match by deactivating its nodes. *)
Definition at_least (n : nat) (ty : PatternMatchType) : Transform (list Node) :=
  mkTransform ty
    (fun _ _ _ => true)
    (fun _ s => (n <=? length s)%nat)
    (fun m g => (true, deactivate m g)).

(** Validates single nodes only. *)
Definition singles (ty : PatternMatchType) : Transform (list Node) :=
  mkTransform ty
    (fun _ _ _ => true)
    (fun _ s => (length s =? 1)%nat)
    (fun m g => (true, deactivate m g)).

(** As [singles], with a [ReplaceRule] that gives up on node 1. *)
Definition failing_on_1 : Transform (list Node) :=
  mkTransform CONNECTED_SUBGRAPH
    (fun _ _ _ => true)
    (fun _ s => (length s =? 1)%nat)
    (fun m g => (negb (contains m 1), deactivate m g)).


(** Two nodes, the first with a child key that is no node index. *)
Definition dangling_pair : list Node :=
  [ mkNode true [] [(5, ["a"%string])];
    mkNode true [] [] ].

(** Accepts no candidate. *)
Definition rejecting (ty : PatternMatchType) : Transform (list Node) :=
  mkTransform ty
    (fun _ _ _ => false)
    (fun _ _ => true)
    (fun m g => (true, g)).

(** As [singles], with a [ReplaceRule] that leaves the graph as it is. *)
Definition keeping (ty : PatternMatchType) : Transform (list Node) :=
  mkTransform ty
    (fun _ _ _ => true)
    (fun _ s => (length s =? 1)%nat)
    (fun m g => (true, g)).

(** Nets that are their own graph. *)
#[export] Instance ListNet : NetOps (list Node) (list Node) := {|
  Graph_of_NetDef := fun net => Ok net;
  GetNetDef := fun g => Ok g
|}.

(** * Reasoning about results *)

Lemma post_bind {A B : Type} (D : Prop) (Q' : A -> Prop) (Q : B -> Prop)
    (m : result A) (k : A -> result B) :
  post D Q' m -> (forall a, Q' a -> post D Q (k a)) -> post D Q (bind m k).
Proof.
  destruct m as [a | e |]; simpl; auto.
Qed.

Lemma post_weaken {A : Type} (D : Prop) (Q Q' : A -> Prop) (r : result A) :
  post D Q r -> (forall a, Q a -> Q' a) -> post D Q' r.
Proof.
  destruct r; simpl; auto.
Qed.

Lemma post_False_any {A : Type} (D : Prop) (Q : A -> Prop) (r : result A) :
  post False Q r -> post D Q r.
Proof.
  destruct r; simpl; auto. intros [].
Qed.

Lemma post_for_each {A S : Type} (D : Prop) (I : S -> Prop)
    (body : A -> S -> result S) (l : list A) :
  (forall a s, In a l -> I s -> post D I (body a s)) ->
  forall s, I s -> post D I (for_each l body s).
Proof.
  induction l as [| a l IH]; intros Hbody s Hs; simpl.
  - exact Hs.
  - apply post_bind with (Q' := I).
    + apply Hbody; [left; reflexivity | exact Hs].
    + intros s' Hs'. apply IH; [| exact Hs'].
      intros b t Hb. apply Hbody. right; exact Hb.
Qed.

Lemma agrees_refl {A : Type} (r : result A) : agrees r r.
Proof.
  intros _. reflexivity.
Qed.

Lemma agrees_bind {A B : Type} (m m' : result A) (k k' : A -> result B) :
  agrees m m' -> (forall a, agrees (k a) (k' a)) ->
  agrees (bind m k) (bind m' k').
Proof.
  intros Hm Hk. destruct m as [a | e |]; simpl; intros Hne.
  - rewrite Hm by discriminate. simpl. apply Hk. exact Hne.
  - rewrite Hm by discriminate. reflexivity.
  - contradiction Hne; reflexivity.
Qed.

Lemma agrees_for_each {A S : Type} (body body' : A -> S -> result S) (l : list A) :
  (forall a s, agrees (body a s) (body' a s)) ->
  forall s, agrees (for_each l body s) (for_each l body' s).
Proof.
  intros Hbody. induction l as [| a l IH]; intros s; simpl.
  - apply agrees_refl.
  - apply agrees_bind; [apply Hbody | exact IH].
Qed.

Lemma post_not_fuel {A : Type} (Q : A -> Prop) (r : result A) :
  post False Q r -> r <> OutOfFuel.
Proof.
  destruct r; simpl; intros Hp; [discriminate | discriminate | contradiction].
Qed.

Lemma post_Ok {A : Type} (D : Prop) (Q : A -> Prop) (r : result A) (a : A) :
  post D Q r -> r = Ok a -> Q a.
Proof.
  intros Hp Hr. subst. exact Hp.
Qed.

Lemma bind_Ok {A B : Type} (m : result A) (k : A -> result B) (b : B) :
  bind m k = Ok b -> exists a, m = Ok a /\ k a = Ok b.
Proof.
  destruct m as [a | e |]; simpl; intros Hk; try discriminate.
  exists a. auto.
Qed.

Lemma for_each_app {A S : Type} (body : A -> S -> result S) (l1 l2 : list A) (s : S) :
  for_each (l1 ++ l2) body s = (s' <- for_each l1 body s ;; for_each l2 body s').
Proof.
  revert s. induction l1 as [| a l1 IH]; intros s; simpl.
  - reflexivity.
  - destruct (body a s) as [s' | e |]; simpl; auto.
Qed.

Lemma In_int_range (lo hi j : Z) : In j (int_range lo hi) <-> lo <= j < hi.
Proof.
  unfold int_range. rewrite in_map_iff. split.
  - intros [k [Hk Hin]]. apply in_seq in Hin. lia.
  - intros Hj. exists (Z.to_nat (j - lo)). split; [lia |].
    apply in_seq. lia.
Qed.

Lemma int_range_succ (k : Z) :
  0 <= k -> int_range 0 (k + 1) = int_range 0 k ++ [k].
Proof.
  intros Hk. unfold int_range.
  replace (Z.to_nat (k + 1 - 0)) with (S (Z.to_nat (k - 0))) by lia.
  rewrite seq_S, map_app. simpl. f_equal. f_equal. lia.
Qed.

Lemma vector_at_Ok {A : Type} (v : list A) (i : Z) (a : A) :
  vector_at v i = Ok a <-> 0 <= i /\ nth_error v (Z.to_nat i) = Some a.
Proof.
  unfold vector_at. destruct (Z.ltb_spec i 0).
  - split; [discriminate | lia].
  - destruct (nth_error v (Z.to_nat i)) eqn:E; split.
    + intros Heq; inversion Heq; subst; auto.
    + intros [_ Heq]; inversion Heq; reflexivity.
    + discriminate.
    + intros [_ Heq]; discriminate.
Qed.

Lemma vector_at_fuel {A : Type} (v : list A) (i : Z) : vector_at v i <> OutOfFuel.
Proof.
  unfold vector_at. destruct (i <? 0); [discriminate |].
  destruct (nth_error v (Z.to_nat i)); discriminate.
Qed.

Lemma enforce_fuel (b : bool) : enforce b <> OutOfFuel.
Proof.
  destruct b; discriminate.
Qed.

Lemma vector_at_range {A : Type} (v : list A) (i : Z) (a : A) :
  vector_at v i = Ok a -> 0 <= i < Z.of_nat (length v).
Proof.
  intros Hat. apply vector_at_Ok in Hat. destruct Hat as [H0 Hn].
  assert (Hlt : (Z.to_nat i < length v)%nat).
  { apply nth_error_Some. congruence. }
  lia.
Qed.

Lemma contains_In (v : list Z) (j : Z) : contains v j = true <-> In j v.
Proof.
  unfold contains. rewrite existsb_exists. split.
  - intros [x [Hin Heq]]. apply Z.eqb_eq in Heq. subst. exact Hin.
  - intros Hin. exists j. split; [exact Hin | apply Z.eqb_refl].
Qed.

Lemma contains_false (v : list Z) (j : Z) : contains v j = false -> ~ In j v.
Proof.
  intros Hc Hin. apply contains_In in Hin. congruence.
Qed.

Lemma pop_back_snoc (st : State) (sub : list Z) (j : Z) :
  subgraph st = sub ++ [j] ->
  pop_back st = Ok (mkState sub (best_subgraph st) (visited st)).
Proof.
  intros Hs. unfold pop_back. rewrite Hs, removelast_last.
  destruct sub; reflexivity.
Qed.

Lemma NoDup_snoc (l : list Z) (j : Z) : NoDup l -> ~ In j l -> NoDup (l ++ [j]).
Proof.
  intros Hnd Hnin. apply NoDup_rev in Hnd.
  rewrite <- (rev_involutive (l ++ [j])). apply NoDup_rev.
  rewrite rev_app_distr. simpl. constructor; [| exact Hnd].
  rewrite <- in_rev. exact Hnin.
Qed.

Lemma sorted_le_last (l : list Z) :
  StronglySorted Z.lt l -> forall x, In x l -> x <= last l 0.
Proof.
  induction 1 as [| a l Hs IH Hall]; intros x Hx; [contradiction |].
  destruct l as [| b l'].
  - destruct Hx as [Hx | []]. subst. simpl. lia.
  - change (last (a :: b :: l') 0) with (last (b :: l') 0).
    destruct Hx as [Hx | Hx].
    + subst. rewrite Forall_forall in Hall.
      assert (Hb : x < b) by (apply Hall; left; reflexivity).
      pose proof (IH b (or_introl eq_refl)). lia.
    + apply IH. exact Hx.
Qed.

Lemma sorted_snoc (l : list Z) (j : Z) :
  StronglySorted Z.lt l -> (forall x, In x l -> x < j) ->
  StronglySorted Z.lt (l ++ [j]).
Proof.
  induction 1 as [| a l Hs IH Hall]; intros Hlt; simpl.
  - constructor; constructor.
  - constructor.
    + apply IH. intros x Hx. apply Hlt. right; exact Hx.
    + apply Forall_app. split; [exact Hall |].
      constructor; [| constructor]. apply Hlt. left; reflexivity.
Qed.

Lemma length_replace_nth {A : Type} (v : list A) (n : nat) (a : A) :
  length (replace_nth v n a) = length v.
Proof.
  revert n. induction v as [| b v IH]; intros [| n]; simpl; auto.
Qed.

Lemma nth_error_replace_nth {A : Type} (v : list A) (n k : nat) (a : A) :
  (n < length v)%nat ->
  nth_error (replace_nth v n a) k = if (k =? n)%nat then Some a else nth_error v k.
Proof.
  revert n k. induction v as [| b v IH]; intros n k Hn; simpl in Hn; [lia |].
  destruct n as [| n]; destruct k as [| k]; simpl; auto.
  apply IH. lia.
Qed.

Lemma vector_set_at (v : list bool) (x : Z) :
  0 <= x < Z.of_nat (length v) ->
  exists v', vector_set v x true = Ok v'
             /\ length v' = length v
             /\ forall y, vector_at v' y = Ok true <->
                          (vector_at v y = Ok true \/ y = x).
Proof.
  intros Hx. unfold vector_set.
  replace ((0 <=? x) && (x <? Z.of_nat (length v))) with true
    by (symmetry; apply andb_true_intro; split; [apply Z.leb_le | apply Z.ltb_lt]; lia).
  eexists. split; [reflexivity |]. split; [apply length_replace_nth |].
  intros y. rewrite !vector_at_Ok.
  rewrite nth_error_replace_nth by lia.
  destruct (Nat.eqb_spec (Z.to_nat y) (Z.to_nat x)) as [E | E].
  - split.
    + intros [Hy _]. right. lia.
    + intros [[Hy _] | Hy]; split; auto; lia.
  - split.
    + intros Hy. left. exact Hy.
    + intros [Hy | Hy]; [exact Hy |]. subst. contradiction E; reflexivity.
Qed.

(** * The matcher: what an expansion can reach *)

Section MatcherFacts.

Context {Graph : Type} `{GraphOps Graph}.
Variable T : Transform Graph.
Variable graph : Graph.

(** *** What the fold of [choose] returns *)

Lemma fold_choose_first_max (vs : list (list Z)) (b : list Z) :
  (fold_left (choose T graph) vs b = b
   /\ forall s, In s vs -> ValidatorRule T graph s = true ->
                (length s <= length b)%nat)
  \/ (exists l1 l2,
        vs = l1 ++ fold_left (choose T graph) vs b :: l2
        /\ ValidatorRule T graph (fold_left (choose T graph) vs b) = true
        /\ (length b < length (fold_left (choose T graph) vs b))%nat
        /\ (forall s, In s l1 -> ValidatorRule T graph s = true ->
                      (length s < length (fold_left (choose T graph) vs b))%nat)
        /\ (forall s, In s l2 -> ValidatorRule T graph s = true ->
                      (length s <= length (fold_left (choose T graph) vs b))%nat)).
Proof.
  revert b. induction vs as [| s vs IH]; intros b; simpl.
  - left. split; [reflexivity | intros s []].
  - assert (Hch : (choose T graph b s = s /\ ValidatorRule T graph s = true
                   /\ (length b < length s)%nat)
                  \/ (choose T graph b s = b
                      /\ (ValidatorRule T graph s = true ->
                          (length s <= length b)%nat))).
    { unfold choose. destruct (ValidatorRule T graph s); simpl.
      - destruct (Nat.ltb_spec (length b) (length s)); [left | right]; auto.
      - right. split; [reflexivity | discriminate]. }
    destruct (IH (choose T graph b s)) as [[Hr Hall] | [l1 [l2 [Hvs [Hval [Hlt [H1 H2]]]]]]].
    + destruct Hch as [[Hc [Hv Hl]] | [Hc Hle]]; rewrite Hc in *.
      * right. exists [], vs. rewrite Hr. simpl. repeat split; auto.
        intros s' [].
      * left. split; [exact Hr |]. intros s' [Hs' | Hs'] Hv; [subst; auto | auto].
    + right. exists (s :: l1), l2. simpl. repeat split; auto.
      * f_equal. exact Hvs.
      * destruct Hch as [[Hc [Hv Hl]] | [Hc Hle]]; rewrite Hc in *; lia.
      * intros s' [Hs' | Hs'] Hv; [subst s' | auto].
        destruct Hch as [[Hc [_ Hl]] | [Hc Hle]]; rewrite Hc in *.
        -- exact Hlt.
        -- specialize (Hle Hv). lia.
Qed.

Lemma fold_choose_In (vs : list (list Z)) :
  fold_left (choose T graph) vs [] <> [] ->
  In (fold_left (choose T graph) vs []) vs
  /\ ValidatorRule T graph (fold_left (choose T graph) vs []) = true.
Proof.
  intros Hne.
  destruct (fold_choose_first_max vs []) as [[Hr _] | [l1 [l2 [Hvs [Hval _]]]]].
  - contradiction.
  - split; [| exact Hval]. rewrite Hvs at 2. apply in_or_app. right; left; reflexivity.
Qed.

Section Reach.

Variable matched : list bool.

Lemma extends_trans (a b c : list Z) :
  extends T graph matched a b -> extends T graph matched b c -> extends T graph matched a c.
Proof.
  intros Hab Hbc. induction Hbc as [| s j Hbs IH Hc].
  - exact Hab.
  - apply extends_step; assumption.
Qed.

Lemma grown_refl (st : State) : grown T graph matched (subgraph st) st st.
Proof.
  split; [reflexivity |]. exists []. rewrite app_nil_r. auto.
Qed.

Lemma grown_trans (sub : list Z) (st1 st2 st3 : State) :
  grown T graph matched sub st1 st2 -> grown T graph matched sub st2 st3 ->
  grown T graph matched sub st1 st3.
Proof.
  intros [_ [vs [Hv [He Hb]]]] [Hs [vs' [Hv' [He' Hb']]]].
  split; [exact Hs |]. exists (vs ++ vs'). repeat split.
  - rewrite Hv', Hv, app_assoc. reflexivity.
  - apply Forall_app; auto.
  - rewrite Hb', Hb, fold_left_app. reflexivity.
Qed.

Lemma grown_entry (st : State) :
  grown T graph matched (subgraph st) st (update_best T graph (log_visit st)).
Proof.
  unfold update_best, log_visit, grown, choose; simpl.
  destruct (ValidatorRule T graph (subgraph st)
            && (length (best_subgraph st) <? length (subgraph st))%nat) eqn:E;
    simpl; (split; [reflexivity |]); exists [subgraph st]; simpl; rewrite E;
    repeat split; auto; constructor; auto; constructor.
Qed.

Lemma grown_pop (sub : list Z) (j : Z) (st st1 : State) :
  candidate T graph matched sub j -> subgraph st = sub ->
  grown T graph matched (sub ++ [j]) (push_back j st) st1 ->
  post False (grown T graph matched sub st) (pop_back st1).
Proof.
  intros Hc Hsub [Hs [vs [Hv [He Hb]]]].
  rewrite (pop_back_snoc st1 sub j Hs). simpl.
  split; [reflexivity |]. exists vs. simpl in *. repeat split; auto.
  eapply Forall_impl; [| exact He].
  intros a Ha. apply extends_trans with (b := sub ++ [j]); [| exact Ha].
  apply extends_step; [apply extends_refl | exact Hc].
Qed.

(** *** The body of [PatternMatchHelper], for any recursive call

    [P] is what the recursive call requires of the working subgraph,
    [P'] what the caller has. *)
Section Body.

Variable D : Prop.
Variables P P' : list Z -> Prop.
Variable rec : State -> result State.

Hypothesis rec_post :
  forall s, P (subgraph s) -> post D (grown T graph matched (subgraph s) s) (rec s).
Hypothesis P_step :
  forall sub j, P' sub -> candidate T graph matched sub j -> P (sub ++ [j]).

Lemma try_append_post (sub : list Z) (st s : State) (j : Z) :
  P' sub -> grown T graph matched sub st s ->
  (vector_at matched j = Ok false -> strategy_candidate T graph sub j) ->
  post D (grown T graph matched sub st) (try_append T graph matched rec j s).
Proof.
  intros HP Hg Hstrat. unfold try_append.
  assert (Hsub : subgraph s = sub) by (destruct Hg; assumption).
  destruct (vector_at matched j) as [m | e |] eqn:Hat; simpl; auto.
  - destruct m; simpl; [exact Hg |].
    rewrite Hsub.
    destruct (PatternRule T graph sub j) eqn:Hrule; [| exact Hg].
    assert (Hc : candidate T graph matched sub j) by (repeat split; auto).
    apply post_bind with (Q' := grown T graph matched (sub ++ [j]) (push_back j s)).
    + replace (sub ++ [j]) with (subgraph (push_back j s))
        by (simpl; rewrite Hsub; reflexivity).
      apply rec_post. simpl. rewrite Hsub. apply P_step; assumption.
    + intros s1 Hs1. apply post_False_any.
      eapply post_weaken; [apply (grown_pop sub j s s1 Hc Hsub Hs1) |].
      intros a Ha. eapply grown_trans; eassumption.
  - exfalso. exact (vector_at_fuel matched j Hat).
Qed.

Lemma try_absent_post (sub : list Z) (st s : State) (j : Z) :
  P' sub -> grown T graph matched sub st s ->
  (vector_at matched j = Ok false -> ~ In j sub -> strategy_candidate T graph sub j) ->
  post D (grown T graph matched sub st) (try_absent T graph matched rec j s).
Proof.
  intros HP Hg Hstrat. unfold try_absent.
  assert (Hsub : subgraph s = sub) by (destruct Hg; assumption).
  destruct (contains (subgraph s) j) eqn:Hc; simpl; [exact Hg |].
  apply try_append_post; auto.
  intros Hat. apply Hstrat; [exact Hat |].
  rewrite <- Hsub. apply contains_false. exact Hc.
Qed.

Lemma TryNeighbors_post (sub : list Z) (st s : State)
    (neighbors : list (Z * list string)) :
  P' sub -> grown T graph matched sub st s ->
  (forall j, In j (map fst neighbors) ->
             vector_at matched j = Ok false -> ~ In j sub ->
             strategy_candidate T graph sub j) ->
  post D (grown T graph matched sub st) (TryNeighbors T graph matched rec neighbors s).
Proof.
  intros HP Hg Hstrat. unfold TryNeighbors.
  apply post_for_each; [| exact Hg].
  intros edge s' Hin Hs'. apply try_absent_post; auto.
  apply Hstrat. apply in_map. exact Hin.
Qed.

Lemma connected_step_post (sub : list Z) (st s : State) (i : Z) :
  pattern_match_type_ T = CONNECTED_SUBGRAPH ->
  P' sub -> grown T graph matched sub st s ->
  post D (grown T graph matched sub st)
    (connected_step T graph matched rec (length sub) i s).
Proof.
  intros Hty HP Hs. unfold connected_step.
  assert (Hsub : subgraph s = sub) by (destruct Hs; assumption).
  rewrite Hsub.
  destruct (vector_index sub i) as [x | e |] eqn:Hx; simpl; auto.
  2:{ unfold vector_index in Hx. destruct (i <? 0); [discriminate |].
      destruct (nth_error sub (Z.to_nat i)); discriminate. }
  assert (Hxin : In x sub).
  { unfold vector_index in Hx. destruct (i <? 0); [discriminate |].
    destruct (nth_error sub (Z.to_nat i)) eqn:E; [| discriminate].
    inversion Hx; subst. eapply nth_error_In; eassumption. }
  apply post_bind with (Q' := grown T graph matched sub st).
  { apply TryNeighbors_post; auto.
    intros j Hj _ Hnin. unfold strategy_candidate. rewrite Hty.
    split; [exact Hnin |]. exists x. split; [exact Hxin | left; exact Hj]. }
  intros s2 Hs2.
  destruct (enforce _) as [[] | e |] eqn:He; simpl; auto.
  2:{ exfalso. exact (enforce_fuel _ He). }
  apply post_bind with (Q' := grown T graph matched sub st).
  { apply TryNeighbors_post; auto.
    intros j Hj _ Hnin. unfold strategy_candidate. rewrite Hty.
    split; [exact Hnin |]. exists x. split; [exact Hxin | right; exact Hj]. }
  intros s3 Hs3.
  destruct (enforce (_ =? length (subgraph s3))%nat) as [[] | e |] eqn:He';
    simpl; auto.
  exfalso. exact (enforce_fuel _ He').
Qed.

Lemma sorted_step_post (sub : list Z) (st s : State) (i : Z) :
  pattern_match_type_ T = SORTED_WRT_EXECUTION_ORDER ->
  In i (int_range (if (0 <? length sub)%nat then last sub 0 + 1 else 0)
          (Z.of_nat (size graph))) ->
  P' sub -> grown T graph matched sub st s ->
  post D (grown T graph matched sub st) (try_append T graph matched rec i s).
Proof.
  intros Hty Hi HP Hs. apply try_append_post; auto.
  intros _. unfold strategy_candidate. rewrite Hty.
  apply In_int_range in Hi.
  destruct sub as [| z sub'] eqn:Esub; simpl in Hi.
  - split; [apply Hi | left; reflexivity].
  - split; [apply Hi | right; simpl; lia].
Qed.

Lemma general_step_post (sub : list Z) (st s : State) (i : Z) :
  pattern_match_type_ T = GENERAL ->
  In i (int_range 0 (Z.of_nat (size graph))) ->
  P' sub -> grown T graph matched sub st s ->
  post D (grown T graph matched sub st) (try_absent T graph matched rec i s).
Proof.
  intros Hty Hi HP Hs. apply try_absent_post; auto.
  intros _ Hnin. unfold strategy_candidate. rewrite Hty.
  apply In_int_range in Hi. split; [exact Hnin | lia].
Qed.

Lemma PatternMatchHelper_body_post (st : State) :
  P' (subgraph st) ->
  post D (grown T graph matched (subgraph st) st) (PatternMatchHelper_body T graph matched rec st).
Proof.
  intros HP. unfold PatternMatchHelper_body.
  pose proof (grown_entry st) as Hentry.
  set (st1 := update_best T graph (log_visit st)) in *.
  assert (Hsub1 : subgraph st1 = subgraph st) by (destruct Hentry; assumption).
  rewrite Hsub1.
  set (sub := subgraph st) in *.
  destruct (pattern_match_type_ T) eqn:Hty.
  - apply post_for_each; [| exact Hentry].
    intros i s _ Hs. apply connected_step_post; auto.
  - apply post_for_each; [| exact Hentry].
    intros i s Hi Hs. apply sorted_step_post; auto.
  - apply post_for_each; [| exact Hentry].
    intros i s Hi Hs. apply general_step_post; auto.
  - exact I.
Qed.

End Body.

(** Partial correctness of the expansion, for any counter. *)
Lemma PatternMatchHelper_grown (fuel : nat) (st : State) :
  post True (grown T graph matched (subgraph st) st) (PatternMatchHelper T graph matched fuel st).
Proof.
  revert st. induction fuel as [| fuel IH]; intros st; simpl.
  - exact I.
  - apply PatternMatchHelper_body_post
      with (P := fun _ => True) (P' := fun _ => True); auto.
Qed.

(** *** Well-formed working subgraphs and termination *)

Hypothesis matched_size : length matched = size graph.

Lemma candidate_in_graph (sub : list Z) (j : Z) :
  candidate T graph matched sub j -> in_graph graph j.
Proof.
  intros [Hat _]. apply vector_at_range in Hat.
  unfold in_graph. rewrite <- matched_size. exact Hat.
Qed.

Lemma candidate_fresh (sub : list Z) (j : Z) :
  wf_subgraph T graph sub -> candidate T graph matched sub j -> ~ In j sub.
Proof.
  intros [_ [_ Hsorted]] [_ [_ Hstrat]]. unfold strategy_candidate in Hstrat.
  destruct (pattern_match_type_ T).
  - tauto.
  - destruct Hstrat as [_ [Hnil | Hlast]].
    + subst. simpl. tauto.
    + intros Hin. pose proof (sorted_le_last sub (Hsorted eq_refl) j Hin). lia.
  - tauto.
  - contradiction.
Qed.

Lemma candidate_wf (sub : list Z) (j : Z) :
  wf_subgraph T graph sub -> candidate T graph matched sub j -> wf_subgraph T graph (sub ++ [j]).
Proof.
  intros Hwf Hc. pose proof (candidate_fresh sub j Hwf Hc) as Hfresh.
  pose proof (candidate_in_graph sub j Hc) as Hin.
  destruct Hwf as [Hnd [Hall Hsorted]]. repeat split.
  - apply NoDup_snoc; assumption.
  - apply Forall_app. split; [exact Hall |]. constructor; auto.
  - intros Hty. apply sorted_snoc; [exact (Hsorted Hty) |].
    intros x Hx. destruct Hc as [_ [_ Hstrat]].
    unfold strategy_candidate in Hstrat. rewrite Hty in Hstrat.
    destruct Hstrat as [_ [Hnil | Hlast]].
    + subst. contradiction.
    + pose proof (sorted_le_last sub (Hsorted Hty) x Hx). lia.
Qed.

Lemma extends_wf (sub s : list Z) :
  wf_subgraph T graph sub -> extends T graph matched sub s -> wf_subgraph T graph s.
Proof.
  intros Hwf He. induction He as [| s j _ IH Hc]; [exact Hwf |].
  apply candidate_wf; assumption.
Qed.

Lemma wf_subgraph_length (sub : list Z) :
  wf_subgraph T graph sub -> (length sub <= size graph)%nat.
Proof.
  intros [Hnd [Hall _]].
  replace (size graph) with (length (int_range 0 (Z.of_nat (size graph)))).
  - apply NoDup_incl_length; [exact Hnd |].
    intros x Hx. apply In_int_range.
    rewrite Forall_forall in Hall. apply Hall. exact Hx.
  - unfold int_range. rewrite length_map, length_seq. lia.
Qed.

(** With a counter above the number of nodes that the working subgraph
    lacks, the expansion comes to an end. *)
Lemma PatternMatchHelper_total (fuel : nat) (st : State) :
  wf_subgraph T graph (subgraph st) ->
  (size graph - length (subgraph st) < fuel)%nat ->
  post False (grown T graph matched (subgraph st) st) (PatternMatchHelper T graph matched fuel st).
Proof.
  revert st. induction fuel as [| fuel IH]; intros st Hwf Hfuel; simpl.
  - lia.
  - apply PatternMatchHelper_body_post
      with (P := fun sub => wf_subgraph T graph sub
                            /\ (size graph - length sub < fuel)%nat)
           (P' := fun sub => wf_subgraph T graph sub
                             /\ (size graph - length sub < S fuel)%nat).
    + intros s [Hs Hf]. apply IH; assumption.
    + intros sub j [Hsub Hf] Hc.
      pose proof (candidate_wf sub j Hsub Hc) as Hwf'.
      split; [exact Hwf' |].
      apply wf_subgraph_length in Hwf'. rewrite length_app in *. simpl in *. lia.
    + split; assumption.
Qed.

(** *** The expansion from one start index *)

Lemma expand_start_expanded (D : Prop) (fuel : nat) (idx : Z) :
  (started T graph matched idx ->
   post D (grown T graph matched [idx] (push_back idx (mkState [] [] [])))
     (PatternMatchHelper T graph matched fuel (push_back idx (mkState [] [] [])))) ->
  post D (expanded T graph matched idx) (expand_start T graph matched fuel idx).
Proof.
  intros Hhelper. unfold expand_start.
  destruct (vector_at matched idx) as [m | e |] eqn:Hat; simpl; auto.
  2:{ exfalso. exact (vector_at_fuel matched idx Hat). }
  assert (Hnone : expanded T graph matched idx (mkState [] [] [])).
  { unfold expanded; simpl. split; [reflexivity |].
    split; [constructor |]. split; [reflexivity |].
    intros Hne. contradiction Hne; reflexivity. }
  destruct m; simpl; [exact Hnone |].
  destruct (PatternRule T graph [] idx) eqn:Hrule; [| exact Hnone].
  apply post_bind with (Q' := grown T graph matched [idx] (push_back idx (mkState [] [] []))).
  - apply Hhelper. split; assumption.
  - intros st1 [Hs [vs [Hv [He Hb]]]].
    rewrite (pop_back_snoc st1 [] idx Hs). simpl in Hv, Hb |- *.
    unfold expanded; simpl. rewrite Hv, Hb.
    split; [reflexivity |]. split; [exact He |]. split; [reflexivity |].
    intros _. split; assumption.
Qed.

(** Partial correctness, for any counter and any registry. *)
Lemma expand_start_partial (fuel : nat) (idx : Z) :
  post True (expanded T graph matched idx) (expand_start T graph matched fuel idx).
Proof.
  apply expand_start_expanded. intros _.
  apply (PatternMatchHelper_grown fuel (push_back idx (mkState [] [] []))).
Qed.

Lemma started_wf (idx : Z) : started T graph matched idx -> wf_subgraph T graph [idx].
Proof.
  intros [Hat _]. apply vector_at_range in Hat. rewrite matched_size in Hat.
  repeat split.
  - constructor; [simpl; tauto | constructor].
  - constructor; [exact Hat | constructor].
  - intros _. constructor; constructor.
Qed.

Lemma expand_start_post (fuel : nat) (idx : Z) :
  (size graph <= fuel)%nat ->
  post False (expanded T graph matched idx) (expand_start T graph matched fuel idx).
Proof.
  intros Hfuel. apply expand_start_expanded. intros Hst.
  pose proof (started_wf idx Hst) as Hwf.
  apply (PatternMatchHelper_total fuel (push_back idx (mkState [] [] []))).
  - exact Hwf.
  - destruct Hwf as [_ [Hall _]]. inversion Hall as [| ? ? Hidx _]; subst.
    unfold in_graph in Hidx. simpl. lia.
Qed.

Lemma extends_unmatched (idx : Z) (m : list Z) :
  started T graph matched idx -> extends T graph matched [idx] m ->
  forall x, In x m -> vector_at matched x = Ok false.
Proof.
  intros [Hat _] He. induction He as [| s j _ IH [Hj _]]; intros x Hx.
  - destruct Hx as [Hx | []]. subst. exact Hat.
  - apply in_app_or in Hx. destruct Hx as [Hx | [Hx | []]]; [auto |].
    subst. exact Hj.
Qed.

Lemma extends_hd (idx : Z) (m : list Z) :
  extends T graph matched [idx] m -> exists tl, m = idx :: tl.
Proof.
  intros He. induction He as [| s j _ [tl IH] _].
  - exists []. reflexivity.
  - subst. exists (tl ++ [j]). reflexivity.
Qed.

End Reach.

(** *** The loop of [PatternMatch] *)

Lemma mark_matched_spec (best : list Z) (matched : list bool) :
  Forall (fun x => 0 <= x < Z.of_nat (length matched)) best ->
  exists matched',
    mark_matched matched best = Ok matched'
    /\ length matched' = length matched
    /\ forall y, vector_at matched' y = Ok true <->
                 (vector_at matched y = Ok true \/ In y best).
Proof.
  unfold mark_matched. revert matched.
  induction best as [| x best IH]; intros matched Hall; simpl.
  - exists matched. repeat split; auto. intros [Hy | []]. exact Hy.
  - inversion Hall as [| ? ? Hx Hrest]; subst.
    destruct (vector_set_at matched x Hx) as [v' [Hset [Hlen Hat]]].
    rewrite Hset. simpl.
    destruct (IH v') as [m' [Hm' [Hlen' Hat']]].
    { rewrite Hlen. exact Hrest. }
    exists m'. split; [exact Hm' |]. split; [congruence |].
    intros y. rewrite Hat', Hat. intuition auto.
Qed.

Lemma recorded_hd (k : Z) (m : list Z) :
  recorded T graph k m -> exists tl, m = hd 0 m :: tl /\ 0 <= hd 0 m < k.
Proof.
  intros [matched0 [idx [_ [Hk [_ [He _]]]]]].
  destruct (extends_hd matched0 idx m He) as [tl Hm]. subst.
  exists tl. simpl. auto.
Qed.

Lemma recorded_mono (k k' : Z) (m : list Z) :
  k <= k' -> recorded T graph k m -> recorded T graph k' m.
Proof.
  intros Hk [matched0 [idx [Hlen [Hidx Hrest]]]].
  exists matched0, idx. split; [exact Hlen |]. split; [lia | exact Hrest].
Qed.

Lemma scan_inv_init : scan_inv T graph 0 (repeat false (size graph), []).
Proof.
  unfold scan_inv; simpl. split; [apply repeat_length |].
  split; [| repeat split; constructor].
  intros x. split; [| intros []].
  intros Hat. apply vector_at_Ok in Hat. destruct Hat as [_ Hn].
  apply nth_error_In, repeat_spec in Hn. discriminate.
Qed.

Lemma PatternMatch_iter_post (fuel : nat) (k : Z) (acc : list bool * list (list Z)) :
  (size graph <= fuel)%nat -> 0 <= k ->
  scan_inv T graph k acc ->
  post False (scan_inv T graph (k + 1)) (PatternMatch_iter T graph fuel k acc).
Proof.
  intros Hfuel Hk [Hlen [Hreg [Hnd [Hrec Hsort]]]].
  destruct acc as [matched matches]. simpl in *.
  assert (Hsame : scan_inv T graph (k + 1) (matched, matches)).
  { unfold scan_inv; simpl. repeat split; auto; try apply Hreg.
    eapply Forall_impl; [| exact Hrec].
    intros m. apply recorded_mono. lia. }
  unfold PatternMatch_iter. simpl.
  apply post_bind with (Q' := expanded T graph matched k).
  { apply expand_start_post; assumption. }
  intros st [Hsub [Hvis [Hbest Hstart]]].
  destruct (Nat.ltb_spec 0 (length (best_subgraph st))) as [Hpos | Hzero];
    [| exact Hsame].
  assert (Hne : fold_left (choose T graph) (visited st) [] <> []).
  { rewrite <- Hbest. destruct (best_subgraph st); [simpl in Hpos; lia | discriminate]. }
  destruct (fold_choose_In (visited st) Hne) as [Hin Hval].
  rewrite <- Hbest in Hin, Hval.
  assert (Hst : started T graph matched k).
  { apply Hstart. intros E. rewrite E in Hin. contradiction. }
  assert (Hext : extends T graph matched [k] (best_subgraph st)).
  { rewrite Forall_forall in Hvis. apply Hvis. exact Hin. }
  assert (Hwf : wf_subgraph T graph (best_subgraph st)).
  { apply extends_wf with (matched := matched) (sub := [k]); auto.
    apply started_wf with (matched := matched); assumption. }
  destruct Hwf as [Hnd' [Hall _]].
  destruct (mark_matched_spec (best_subgraph st) matched) as [m' [Hm' [Hlen' Hat']]].
  { rewrite Hlen. exact Hall. }
  rewrite Hm'. simpl. unfold scan_inv; simpl.
  split; [congruence |].
  split.
  { intros x. rewrite Hat', Hreg, concat_app, in_app_iff. simpl.
    rewrite app_nil_r. tauto. }
  split.
  { rewrite concat_app. simpl. rewrite app_nil_r.
    apply NoDup_app; auto.
    intros x Hx Hx'. apply Hreg in Hx.
    pose proof (extends_unmatched matched k (best_subgraph st) Hst Hext x Hx').
    congruence. }
  split.
  { apply Forall_app. split.
    - eapply Forall_impl; [| exact Hrec]. intros m. apply recorded_mono. lia.
    - constructor; [| constructor].
      exists matched, k. repeat split; auto; try lia; apply Hst. }
  rewrite map_app. simpl.
  apply sorted_snoc; [exact Hsort |].
  intros x Hx. apply in_map_iff in Hx. destruct Hx as [m [Hm Hin']].
  rewrite Forall_forall in Hrec.
  destruct (recorded_hd k m (Hrec m Hin')) as [tl [_ Hlt]].
  destruct (extends_hd matched k (best_subgraph st) Hext) as [tl' Hb].
  rewrite Hb. simpl. lia.
Qed.

Lemma PatternMatch_scan_succ (fuel : nat) (k : Z) :
  0 <= k ->
  PatternMatch_scan T graph fuel (k + 1)
  = (acc <- PatternMatch_scan T graph fuel k ;; PatternMatch_iter T graph fuel k acc).
Proof.
  intros Hk. unfold PatternMatch_scan.
  rewrite int_range_succ by exact Hk. rewrite for_each_app. simpl.
  destruct (for_each (int_range 0 k) _ _) as [a | e |]; simpl; auto.
  destruct (PatternMatch_iter T graph fuel k a); reflexivity.
Qed.

Lemma PatternMatch_scan_post (fuel : nat) (n : nat) :
  (size graph <= fuel)%nat ->
  post False (scan_inv T graph (Z.of_nat n)) (PatternMatch_scan T graph fuel (Z.of_nat n)).
Proof.
  intros Hfuel. induction n as [| n IH].
  - simpl. exact scan_inv_init.
  - rewrite Nat2Z.inj_succ. unfold Z.succ.
    rewrite PatternMatch_scan_succ by lia.
    apply post_bind with (Q' := scan_inv T graph (Z.of_nat n)); [exact IH |].
    intros acc Hacc. apply PatternMatch_iter_post; auto. lia.
Qed.

(** *** More fuel does not change a result *)

Section Fuel.

Variable matched : list bool.
Variables rec rec' : State -> result State.
Hypothesis rec_agrees : forall s, agrees (rec s) (rec' s).

Lemma try_append_agrees (j : Z) (st : State) :
  agrees (try_append T graph matched rec j st)
         (try_append T graph matched rec' j st).
Proof.
  unfold try_append. apply agrees_bind; [apply agrees_refl |].
  intros m. destruct (negb m && PatternRule T graph (subgraph st) j).
  - apply agrees_bind; [apply rec_agrees | intros a; apply agrees_refl].
  - apply agrees_refl.
Qed.

Lemma try_absent_agrees (j : Z) (st : State) :
  agrees (try_absent T graph matched rec j st)
         (try_absent T graph matched rec' j st).
Proof.
  unfold try_absent. destruct (negb (contains (subgraph st) j)).
  - apply try_append_agrees.
  - apply agrees_refl.
Qed.

Lemma TryNeighbors_agrees (neighbors : list (Z * list string)) (st : State) :
  agrees (TryNeighbors T graph matched rec neighbors st)
         (TryNeighbors T graph matched rec' neighbors st).
Proof.
  unfold TryNeighbors. apply agrees_for_each.
  intros edge s. apply try_absent_agrees.
Qed.

Lemma PatternMatchHelper_body_agrees (st : State) :
  agrees (PatternMatchHelper_body T graph matched rec st)
         (PatternMatchHelper_body T graph matched rec' st).
Proof.
  unfold PatternMatchHelper_body. destruct (pattern_match_type_ T).
  - apply agrees_for_each. intros i s. unfold connected_step.
    apply agrees_bind; [apply agrees_refl |]. intros x.
    apply agrees_bind; [apply TryNeighbors_agrees |]. intros s2.
    apply agrees_bind; [apply agrees_refl |]. intros _.
    apply agrees_bind; [apply TryNeighbors_agrees |]. intros s3.
    apply agrees_refl.
  - apply agrees_for_each. intros i s. apply try_append_agrees.
  - apply agrees_for_each. intros i s. apply try_absent_agrees.
  - apply agrees_refl.
Qed.

End Fuel.

Lemma PatternMatchHelper_mono (matched : list bool) (fuel fuel' : nat) :
  (fuel <= fuel')%nat ->
  forall st, agrees (PatternMatchHelper T graph matched fuel st)
                    (PatternMatchHelper T graph matched fuel' st).
Proof.
  revert fuel'. induction fuel as [| fuel IH]; intros fuel' Hle st.
  - intros Hne. contradiction Hne; reflexivity.
  - destruct fuel' as [| fuel']; [lia |]. simpl.
    apply PatternMatchHelper_body_agrees. apply IH. lia.
Qed.

Lemma PatternMatch_iter_mono (fuel fuel' : nat) (idx : Z)
    (acc : list bool * list (list Z)) :
  (fuel <= fuel')%nat ->
  agrees (PatternMatch_iter T graph fuel idx acc)
         (PatternMatch_iter T graph fuel' idx acc).
Proof.
  intros Hle. unfold PatternMatch_iter. apply agrees_bind.
  - unfold expand_start. apply agrees_bind; [apply agrees_refl |].
    intros m. destruct (negb m && _).
    + apply agrees_bind; [| intros a; apply agrees_refl].
      apply PatternMatchHelper_mono. exact Hle.
    + apply agrees_refl.
  - intros st. apply agrees_refl.
Qed.

Lemma PatternMatch_fuel_mono (fuel fuel' : nat) :
  (fuel <= fuel')%nat ->
  agrees (PatternMatch_fuel T graph fuel) (PatternMatch_fuel T graph fuel').
Proof.
  intros Hle. unfold PatternMatch_fuel, PatternMatch_scan.
  apply agrees_bind; [| intros a; apply agrees_refl].
  apply agrees_for_each. intros idx acc. apply PatternMatch_iter_mono. exact Hle.
Qed.

(** The counter of [PatternMatch] is large enough: the search ends, and
    with any counter from [size graph] on it ends with the same result. *)
Lemma PatternMatch_fuel_enough (fuel : nat) :
  (size graph <= fuel)%nat ->
  PatternMatch_fuel T graph fuel <> OutOfFuel
  /\ PatternMatch_fuel T graph fuel = PatternMatch T graph.
Proof.
  intros Hfuel.
  assert (Hne : forall f, (size graph <= f)%nat ->
                          PatternMatch_fuel T graph f <> OutOfFuel).
  { intros f Hf. apply post_not_fuel with (Q := fun _ => True).
    unfold PatternMatch_fuel. eapply post_bind.
    - apply (PatternMatch_scan_post f (size graph) Hf).
    - intros acc _. exact I. }
  split; [apply Hne; exact Hfuel |].
  unfold PatternMatch.
  rewrite (PatternMatch_fuel_mono (size graph) fuel Hfuel (Hne _ (le_n _))).
  symmetry.
  apply (PatternMatch_fuel_mono (size graph) (S (size graph))); [lia |].
  apply Hne. lia.
Qed.

Lemma PatternMatch_scan_inv (matches : list (list Z)) :
  PatternMatch T graph = Ok matches ->
  exists matched,
    PatternMatch_scan T graph (S (size graph)) (Z.of_nat (size graph))
    = Ok (matched, matches)
    /\ scan_inv T graph (Z.of_nat (size graph)) (matched, matches).
Proof.
  unfold PatternMatch, PatternMatch_fuel. intros Hpm.
  apply bind_Ok in Hpm. destruct Hpm as [[matched ms] [Hscan Hms]].
  inversion Hms; subst. exists matched. split; [exact Hscan |].
  eapply post_Ok; [| exact Hscan].
  apply PatternMatch_scan_post. lia.
Qed.

End MatcherFacts.

(** * Lists of matches *)

Lemma NoDup_app_disjoint (l1 l2 : list Z) (x : Z) :
  NoDup (l1 ++ l2) -> In x l1 -> ~ In x l2.
Proof.
  induction l1 as [| a l1 IH]; simpl; intros Hnd Hin; [contradiction |].
  inversion Hnd as [| ? ? Hna Hnd']; subst.
  destruct Hin as [Hin | Hin].
  - subst. intros Hx. apply Hna. apply in_or_app. right; exact Hx.
  - apply IH; assumption.
Qed.

Lemma NoDup_concat_disjoint (ms : list (list Z)) :
  NoDup (concat ms) ->
  forall i j mi mj x,
    nth_error ms i = Some mi -> nth_error ms j = Some mj -> i <> j ->
    In x mi -> ~ In x mj.
Proof.
  induction ms as [| m ms IH]; intros Hnd i j mi mj x Hi Hj Hij Hxi Hxj.
  - destruct i; discriminate.
  - simpl in Hnd. destruct i as [| i]; destruct j as [| j]; simpl in Hi, Hj.
    + contradiction Hij; reflexivity.
    + inversion Hi; subst. apply (NoDup_app_disjoint _ _ x Hnd Hxi).
      apply in_concat. exists mj. split; [eapply nth_error_In; eassumption | exact Hxj].
    + inversion Hj; subst. apply (NoDup_app_disjoint _ _ x Hnd Hxj).
      apply in_concat. exists mi. split; [eapply nth_error_In; eassumption | exact Hxi].
    + apply NoDup_app_remove_l in Hnd.
      apply (IH Hnd i j mi mj x); auto.
Qed.

Lemma NoDup_concat_member (ms : list (list Z)) (m : list Z) :
  NoDup (concat ms) -> In m ms -> NoDup m.
Proof.
  induction ms as [| a ms IH]; simpl; intros Hnd Hin; [contradiction |].
  destruct Hin as [Hin | Hin].
  - subst. apply NoDup_app_remove_r in Hnd. exact Hnd.
  - apply IH; [| exact Hin]. apply NoDup_app_remove_l in Hnd. exact Hnd.
Qed.

Section MatcherLaws.

Context {Graph : Type} `{GraphOps Graph}.
Variable T : Transform Graph.
Variable graph : Graph.

(** Every element of a reached subgraph beyond the start was a candidate
    for the prefix before it. *)
Lemma extends_prefix (matched : list bool) (sub m : list Z) :
  extends T graph matched sub m ->
  forall pre x post,
    m = pre ++ x :: post -> (length sub <= length pre)%nat ->
    extends T graph matched sub pre /\ candidate T graph matched pre x.
Proof.
  intros He. induction He as [| s j Hs IH Hc]; intros pre x post Hm Hlen.
  - apply (f_equal (@length Z)) in Hm. rewrite length_app in Hm. simpl in Hm. lia.
  - destruct post as [| y post _] using rev_ind.
    + apply app_inj_tail in Hm. destruct Hm; subst. split; assumption.
    + change (pre ++ x :: post ++ [y]) with (pre ++ (x :: post) ++ [y]) in Hm.
      rewrite app_assoc in Hm. apply app_inj_tail in Hm. destruct Hm as [Hm _].
      apply (IH pre x post Hm Hlen).
Qed.

(** What a recorded match is made of. *)
Lemma recorded_steps (k : Z) (m : list Z) :
  recorded T graph k m ->
  exists matched0,
    length matched0 = size graph
    /\ wf_subgraph T graph m
    /\ forall pre x post,
         m = pre ++ x :: post ->
         vector_at matched0 x = Ok false
         /\ PatternRule T graph pre x = true
         /\ (pre <> [] -> strategy_candidate T graph pre x).
Proof.
  intros [matched0 [idx [Hlen [Hk [Hst [He Hval]]]]]].
  exists matched0. split; [exact Hlen |]. split.
  { apply extends_wf with (matched := matched0) (sub := [idx]); auto.
    apply started_wf with (matched := matched0); assumption. }
  intros pre x post Hm. destruct pre as [| p pre].
  - destruct (extends_hd T graph matched0 idx m He) as [tl Htl].
    rewrite Htl in Hm. simpl in Hm. inversion Hm; subst.
    destruct Hst as [Hat Hrule]. repeat split; auto.
    intros Hne. contradiction Hne; reflexivity.
  - destruct (extends_prefix matched0 [idx] m He (p :: pre) x post Hm)
      as [_ [Hat [Hrule Hstrat]]]; [simpl; lia |].
    repeat split; auto.
Qed.

(** ** Connected matches *)

Lemma linked_mono (s : list Z) (j a b : Z) :
  clos_refl_sym_trans Z (linked graph s) a b ->
  clos_refl_sym_trans Z (linked graph (s ++ [j])) a b.
Proof.
  induction 1 as [a b [Ha [Hb Hadj]] | a | a b _ IH | a b c _ IH1 _ IH2].
  - apply rst_step. repeat split; auto; apply in_or_app; left; assumption.
  - apply rst_refl.
  - apply rst_sym. exact IH.
  - eapply rst_trans; eassumption.
Qed.

Lemma attached_connected (m : list Z) : attached graph m -> connected graph m.
Proof.
  induction m as [| j s IH] using rev_ind; intros Hatt.
  - intros a b [].
  - assert (Hs : connected graph s).
    { apply IH. intros pre x post Hm Hne.
      apply (Hatt pre x (post ++ [j])); [| exact Hne].
      rewrite Hm, <- app_assoc. reflexivity. }
    assert (Hj : forall a, In a (s ++ [j]) ->
                           clos_refl_sym_trans Z (linked graph (s ++ [j])) a j).
    { intros a Ha. apply in_app_or in Ha. destruct Ha as [Ha | [Ha | []]].
      - assert (Hne : s <> []) by (intros E; subst; contradiction).
        destruct (Hatt s j [] eq_refl Hne) as [y [Hy Hadj]].
        apply rst_trans with (y := y).
        + apply linked_mono. apply Hs; assumption.
        + apply rst_step. repeat split; auto; apply in_or_app; simpl; auto.
      - subst. apply rst_refl. }
    intros a b Ha Hb. apply rst_trans with (y := j).
    + apply Hj. exact Ha.
    + apply rst_sym. apply Hj. exact Hb.
Qed.

End MatcherLaws.

(** * Every reachable subgraph is visited *)

Section Coverage.

Context {Graph : Type} `{GraphOps Graph}.
Variable T : Transform Graph.
Variable graph : Graph.
Variable matched : list bool.

Lemma extends_first_step (sub s : list Z) :
  extends T graph matched sub s ->
  s = sub \/ exists j, candidate T graph matched sub j /\ extends T graph matched (sub ++ [j]) s.
Proof.
  intros He. induction He as [| s0 j0 _ IH Hc].
  - left. reflexivity.
  - right. destruct IH as [E | [j [Hj Hr]]].
    + subst s0. exists j0. split; [exact Hc | apply extends_refl].
    + exists j. split; [exact Hj |]. apply extends_step; assumption.
Qed.

Lemma grown_visited (sub : list Z) (st st' : State) (s : list Z) :
  grown T graph matched sub st st' -> In s (visited st) -> In s (visited st').
Proof.
  intros [_ [vs [Hv _]]] Hin. rewrite Hv. apply in_or_app. left; exact Hin.
Qed.

Lemma grown_here (st : State) : grown T graph matched (subgraph st) st st.
Proof.
  apply grown_refl.
Qed.

Lemma for_each_visits {A : Type} (body : A -> State -> result State)
    (sub : list Z) (l : list A) :
  (forall a s, In a l -> subgraph s = sub -> post True (grown T graph matched sub s) (body a s)) ->
  forall s0 s' a,
    subgraph s0 = sub -> for_each l body s0 = Ok s' -> In a l ->
    exists s1 s2,
      grown T graph matched sub s0 s1 /\ body a s1 = Ok s2
      /\ grown T graph matched sub s2 s'.
Proof.
  induction l as [| b l IH]; intros Hbody s0 s' a Hsub Hrun Hin; [contradiction |].
  simpl in Hrun. apply bind_Ok in Hrun. destruct Hrun as [t [Hb Hrest]].
  assert (Ht : grown T graph matched sub s0 t).
  { apply (post_Ok True _ _ t (Hbody b s0 (or_introl eq_refl) Hsub) Hb). }
  assert (Htsub : subgraph t = sub) by (destruct Ht; assumption).
  destruct Hin as [Hin | Hin].
  - subst b. exists s0, t. split; [rewrite <- Hsub; apply grown_here |].
    split; [exact Hb |].
    eapply (post_Ok True); [| exact Hrest].
    apply post_for_each; [| rewrite <- Htsub; apply grown_here].
    intros c u Hc Hu.
    assert (Husub : subgraph u = sub) by (destruct Hu; assumption).
    eapply post_weaken; [apply (Hbody c u (or_intror Hc) Husub) |].
    intros v Hv. eapply grown_trans; eassumption.
  - destruct (IH (fun c u Hc => Hbody c u (or_intror Hc)) t s' a Htsub Hrest Hin)
      as [s1 [s2 [H1 [H2 H3]]]].
    exists s1, s2. split; [eapply grown_trans; eassumption |]. split; assumption.
Qed.

Section Call.

Variable rec : State -> result State.

Hypothesis rec_grows : forall s, post True (grown T graph matched (subgraph s) s) (rec s).
Hypothesis rec_visits :
  forall st st' s, rec st = Ok st' -> extends T graph matched (subgraph st) s -> In s (visited st').

Lemma rec_grown (s : State) :
  True -> post True (grown T graph matched (subgraph s) s) (rec s).
Proof.
  intros _. apply rec_grows.
Qed.

Lemma step_trivial (sub : list Z) (j : Z) :
  True -> candidate T graph matched sub j -> True.
Proof.
  auto.
Qed.

Lemma try_append_visits (sub : list Z) (j : Z) (s1 s2 : State) (target : list Z) :
  subgraph s1 = sub -> candidate T graph matched sub j ->
  try_append T graph matched rec j s1 = Ok s2 ->
  extends T graph matched (sub ++ [j]) target -> In target (visited s2).
Proof.
  intros Hsub [Hat [Hrule _]] Hrun Htarget. unfold try_append in Hrun.
  rewrite Hat, Hsub, Hrule in Hrun. simpl in Hrun.
  apply bind_Ok in Hrun. destruct Hrun as [r [Hrec Hpop]].
  assert (Hin : In target (visited r)).
  { apply (rec_visits (push_back j s1) r target Hrec). simpl. rewrite Hsub. exact Htarget. }
  unfold pop_back in Hpop. destruct (subgraph r); [discriminate |].
  inversion Hpop; subst s2. exact Hin.
Qed.

Lemma try_absent_visits (sub : list Z) (j : Z) (s1 s2 : State) (target : list Z) :
  subgraph s1 = sub -> candidate T graph matched sub j -> ~ In j sub ->
  try_absent T graph matched rec j s1 = Ok s2 ->
  extends T graph matched (sub ++ [j]) target -> In target (visited s2).
Proof.
  intros Hsub Hc Hnin Hrun Htarget. unfold try_absent in Hrun.
  destruct (contains (subgraph s1) j) eqn:E.
  - apply contains_In in E. rewrite Hsub in E. contradiction.
  - simpl in Hrun. apply (try_append_visits sub j s1 s2 target); assumption.
Qed.

Lemma TryNeighbors_grows (sub : list Z) (x : Z) (neighbors : list (Z * list string))
    (s : State) :
  pattern_match_type_ T = CONNECTED_SUBGRAPH ->
  In x sub ->
  (forall j, In j (map fst neighbors) -> adjacent graph x j) ->
  subgraph s = sub ->
  post True (grown T graph matched sub s) (TryNeighbors T graph matched rec neighbors s).
Proof.
  intros Hty Hx Hadj Hsub.
  apply (TryNeighbors_post T graph matched True (fun _ => True) (fun _ => True) rec
           rec_grown step_trivial sub s s neighbors I).
  - rewrite <- Hsub. apply grown_here.
  - intros j Hj _ Hnin. unfold strategy_candidate. rewrite Hty.
    split; [exact Hnin |]. exists x. split; [exact Hx | apply Hadj; exact Hj].
Qed.

Lemma TryNeighbors_visits (sub : list Z) (x j : Z)
    (neighbors : list (Z * list string)) (s0 s' : State) (target : list Z) :
  pattern_match_type_ T = CONNECTED_SUBGRAPH ->
  In x sub ->
  (forall j', In j' (map fst neighbors) -> adjacent graph x j') ->
  subgraph s0 = sub ->
  In j (map fst neighbors) -> candidate T graph matched sub j -> ~ In j sub ->
  TryNeighbors T graph matched rec neighbors s0 = Ok s' ->
  extends T graph matched (sub ++ [j]) target -> In target (visited s').
Proof.
  intros Hty Hx Hadj Hsub Hj Hc Hnin Hrun Htarget. unfold TryNeighbors in Hrun.
  apply in_map_iff in Hj. destruct Hj as [edge [Hfst Hedge]].
  destruct (for_each_visits
              (fun edge st' => try_absent T graph matched rec (fst edge) st')
              sub neighbors) with (s0 := s0) (s' := s') (a := edge)
    as [s1 [s2 [H1 [H2 H3]]]]; auto.
  - intros e s He Hs.
    apply (try_absent_post T graph matched True (fun _ => True) (fun _ => True) rec
             rec_grown step_trivial sub s s (fst e) I).
    + rewrite <- Hs. apply grown_here.
    + intros _ Hn. unfold strategy_candidate. rewrite Hty.
      split; [exact Hn |]. exists x. split; [exact Hx |].
      apply Hadj. apply in_map. exact He.
  - apply (grown_visited sub s2 s'); [exact H3 |].
    rewrite Hfst in H2.
    apply (try_absent_visits sub j s1 s2 target); auto.
    destruct H1; assumption.
Qed.

Lemma connected_step_visits (sub : list Z) (n : nat) (x j : Z) (s1 s2 : State)
    (target : list Z) :
  pattern_match_type_ T = CONNECTED_SUBGRAPH ->
  subgraph s1 = sub -> nth_error sub n = Some x ->
  candidate T graph matched sub j -> ~ In j sub -> adjacent graph x j ->
  connected_step T graph matched rec (length sub) (Z.of_nat n) s1 = Ok s2 ->
  extends T graph matched (sub ++ [j]) target -> In target (visited s2).
Proof.
  intros Hty Hsub Hn Hc Hnin Hadj Hrun Htarget. unfold connected_step in Hrun.
  assert (Hx : In x sub) by (eapply nth_error_In; eassumption).
  assert (Hidx : vector_index (subgraph s1) (Z.of_nat n) = Ok x).
  { unfold vector_index. destruct (Z.ltb_spec (Z.of_nat n) 0); [lia |].
    rewrite Nat2Z.id, Hsub, Hn. reflexivity. }
  rewrite Hidx in Hrun. simpl in Hrun.
  apply bind_Ok in Hrun. destruct Hrun as [t1 [Hc1 Hrun]].
  apply bind_Ok in Hrun. destruct Hrun as [[] [_ Hrun]].
  apply bind_Ok in Hrun. destruct Hrun as [t2 [Hc2 Hrun]].
  apply bind_Ok in Hrun. destruct Hrun as [[] [_ Hrun]].
  inversion Hrun; subst s2.
  assert (Hg1 : grown T graph matched sub s1 t1).
  { apply (post_Ok True _ _ t1
             (TryNeighbors_grows sub x _ s1 Hty Hx (fun j' Hj' => or_introl Hj') Hsub) Hc1). }
  assert (Hsub1 : subgraph t1 = sub) by (destruct Hg1; assumption).
  assert (Hg2 : grown T graph matched sub t1 t2).
  { apply (post_Ok True _ _ t2
             (TryNeighbors_grows sub x _ t1 Hty Hx (fun j' Hj' => or_intror Hj') Hsub1) Hc2). }
  destruct Hadj as [Hch | Hpa].
  - apply (grown_visited sub t1 t2); [exact Hg2 |].
    apply (TryNeighbors_visits sub x j (children (node graph x)) s1 t1 target); auto.
    intros j' Hj'. left; exact Hj'.
  - apply (TryNeighbors_visits sub x j (parents (node graph x)) t1 t2 target); auto.
    intros j' Hj'. right; exact Hj'.
Qed.

Lemma PatternMatchHelper_body_visits (st st' : State) (target : list Z) :
  PatternMatchHelper_body T graph matched rec st = Ok st' ->
  extends T graph matched (subgraph st) target -> In target (visited st').
Proof.
  intros Hrun Htarget. unfold PatternMatchHelper_body in Hrun.
  pose proof (grown_entry T graph matched st) as Hentry.
  set (st1 := update_best T graph (log_visit st)) in *.
  assert (Hsub1 : subgraph st1 = subgraph st) by (destruct Hentry; assumption).
  assert (Hself : In (subgraph st) (visited st1)).
  { unfold st1, update_best, log_visit; simpl.
    destruct (_ && _); simpl; apply in_or_app; right; left; reflexivity. }
  rewrite Hsub1 in Hrun.
  set (sub := subgraph st) in *.
  assert (Hloop : forall (body : Z -> State -> result State) (l : list Z),
             (forall a s, In a l -> subgraph s = sub ->
                          post True (grown T graph matched sub s) (body a s)) ->
             for_each l body st1 = Ok st' ->
             grown T graph matched sub st1 st'
             /\ forall a, In a l ->
                  exists s1 s2, grown T graph matched sub st1 s1 /\ body a s1 = Ok s2
                                /\ grown T graph matched sub s2 st').
  { intros body l Hbody Hfor. split.
    - eapply (post_Ok True); [| exact Hfor].
      apply post_for_each; [| rewrite <- Hsub1; apply grown_here].
      intros c u Hc Hu.
      assert (Husub : subgraph u = sub) by (destruct Hu; assumption).
      eapply post_weaken; [apply (Hbody c u Hc Husub) |].
      intros v Hv. eapply grown_trans; eassumption.
    - intros a Ha. apply (for_each_visits body sub l Hbody st1 st' a Hsub1 Hfor Ha). }
  destruct (extends_first_step sub target Htarget) as [E | [j [Hc Hrest]]].
  { subst target.
    destruct (pattern_match_type_ T) eqn:Hty; try discriminate;
      match type of Hrun with
      | for_each ?l ?body _ = _ =>
          assert (Hg : grown T graph matched sub st1 st');
          [ eapply (post_Ok True); [| exact Hrun];
            apply post_for_each; [| rewrite <- Hsub1; apply grown_here];
            intros c u Hc Hu;
            assert (Husub : subgraph u = sub) by (destruct Hu; assumption);
            eapply post_weaken;
            [| intros v Hv; eapply grown_trans; [exact Hu | exact Hv]]
          | apply (grown_visited sub st1 st' sub Hg Hself) ]
      end.
    - apply (connected_step_post T graph matched True (fun _ => True) (fun _ => True)
               rec rec_grown step_trivial sub u u c Hty I).
      rewrite <- Husub. apply grown_here.
    - apply (sorted_step_post T graph matched True (fun _ => True) (fun _ => True)
               rec rec_grown step_trivial sub u u c Hty Hc I).
      rewrite <- Husub. apply grown_here.
    - apply (general_step_post T graph matched True (fun _ => True) (fun _ => True)
               rec rec_grown step_trivial sub u u c Hty Hc I).
      rewrite <- Husub. apply grown_here. }
  pose proof Hc as [Hat [Hrule Hstrat]].
  pose proof (vector_at_range matched j false Hat) as Hj0.
  unfold strategy_candidate in Hstrat.
  destruct (pattern_match_type_ T) eqn:Hty; try contradiction.
  - (* CONNECTED_SUBGRAPH *)
    destruct Hstrat as [Hnin [x [Hx Hadj]]].
    destruct (In_nth_error sub x Hx) as [n Hn].
    assert (Hlt : (n < length sub)%nat) by (apply nth_error_Some; congruence).
    destruct (Hloop (connected_step T graph matched rec (length sub))
                (int_range 0 (Z.of_nat (length sub)))) as [_ Hall]; auto.
    { intros a s _ Hs.
      apply (connected_step_post T graph matched True (fun _ => True) (fun _ => True)
               rec rec_grown step_trivial sub s s a Hty I).
      rewrite <- Hs. apply grown_here. }
    destruct (Hall (Z.of_nat n)) as [s1 [s2 [H1 [H2 H3]]]].
    { apply In_int_range. lia. }
    apply (grown_visited sub s2 st'); [exact H3 |].
    apply (connected_step_visits sub n x j s1 s2 target); auto.
    destruct H1; assumption.
  - (* SORTED_WRT_EXECUTION_ORDER *)
    destruct Hstrat as [Hlt Hlast].
    destruct (Hloop (try_append T graph matched rec)
                (int_range (if (0 <? length sub)%nat then last sub 0 + 1 else 0)
                   (Z.of_nat (size graph)))) as [_ Hall]; auto.
    { intros a s Ha Hs.
      apply (sorted_step_post T graph matched True (fun _ => True) (fun _ => True)
               rec rec_grown step_trivial sub s s a Hty Ha I).
      rewrite <- Hs. apply grown_here. }
    destruct (Hall j) as [s1 [s2 [H1 [H2 H3]]]].
    { apply In_int_range. destruct sub as [| z sub'] eqn:Esub; simpl.
      - lia.
      - destruct Hlast as [E | Hl]; [discriminate | simpl in Hl; lia]. }
    apply (grown_visited sub s2 st'); [exact H3 |].
    apply (try_append_visits sub j s1 s2 target); auto.
    destruct H1; assumption.
  - (* GENERAL *)
    destruct Hstrat as [Hnin Hrange].
    destruct (Hloop (try_absent T graph matched rec)
                (int_range 0 (Z.of_nat (size graph)))) as [_ Hall]; auto.
    { intros a s Ha Hs.
      apply (general_step_post T graph matched True (fun _ => True) (fun _ => True)
               rec rec_grown step_trivial sub s s a Hty Ha I).
      rewrite <- Hs. apply grown_here. }
    destruct (Hall j) as [s1 [s2 [H1 [H2 H3]]]].
    { apply In_int_range. lia. }
    apply (grown_visited sub s2 st'); [exact H3 |].
    apply (try_absent_visits sub j s1 s2 target); auto.
    destruct H1; assumption.
Qed.

End Call.

Lemma PatternMatchHelper_visits (fuel : nat) (st st' : State) (target : list Z) :
  PatternMatchHelper T graph matched fuel st = Ok st' ->
  extends T graph matched (subgraph st) target -> In target (visited st').
Proof.
  revert st st' target. induction fuel as [| fuel IH]; intros st st' target Hrun.
  - discriminate Hrun.
  - simpl in Hrun.
    apply (PatternMatchHelper_body_visits (PatternMatchHelper T graph matched fuel)
             (PatternMatchHelper_grown T graph matched fuel) IH st st' target Hrun).
Qed.

(** After the expansion from an accepted start index, the visited
    subgraphs are the reachable ones. *)
Lemma expand_start_visits (fuel : nat) (idx : Z) (st : State) (s : list Z) :
  expand_start T graph matched fuel idx = Ok st ->
  In s (visited st) <-> started T graph matched idx /\ extends T graph matched [idx] s.
Proof.
  intros Hexp.
  pose proof (post_Ok True _ _ st (expand_start_partial T graph matched fuel idx) Hexp)
    as [_ [Hvis [_ Hstart]]].
  split.
  - intros Hin. split.
    + apply Hstart. intros E. rewrite E in Hin. contradiction.
    + rewrite Forall_forall in Hvis. apply Hvis. exact Hin.
  - intros [[Hat Hrule] Hreach]. unfold expand_start in Hexp.
    rewrite Hat in Hexp. simpl in Hexp. rewrite Hrule in Hexp. simpl in Hexp.
    apply bind_Ok in Hexp. destruct Hexp as [r [Hrec Hpop]].
    assert (Hin : In s (visited r)).
    { apply (PatternMatchHelper_visits fuel _ r s Hrec). simpl. exact Hreach. }
    unfold pop_back in Hpop. destruct (subgraph r); [discriminate |].
    inversion Hpop; subst st. exact Hin.
Qed.

End Coverage.

(** * Properties of the matcher *)

Section MatcherClaims.

Context {Graph : Type} `{GraphOps Graph}.
Variable T : Transform Graph.
Variable graph : Graph.

(** One iteration of the scan either leaves registry and matches as
    they are, or appends one match that begins with the start index. *)
Lemma PatternMatch_iter_cases (fuel : nat) (k : Z)
    (acc acc' : list bool * list (list Z)) :
  PatternMatch_iter T graph fuel k acc = Ok acc' ->
  exists st,
    expand_start T graph (fst acc) fuel k = Ok st
    /\ expanded T graph (fst acc) k st
    /\ ((best_subgraph st = [] /\ acc' = acc)
        \/ (started T graph (fst acc) k
            /\ In (best_subgraph st) (visited st)
            /\ (exists tl, best_subgraph st = k :: tl)
            /\ mark_matched (fst acc) (best_subgraph st) = Ok (fst acc')
            /\ snd acc' = snd acc ++ [best_subgraph st])).
Proof.
  unfold PatternMatch_iter. intros Hiter.
  apply bind_Ok in Hiter. destruct Hiter as [st [Hexp Hrest]].
  exists st. split; [exact Hexp |].
  pose proof (post_Ok True _ _ st (expand_start_partial T graph (fst acc) fuel k) Hexp)
    as Hexpanded.
  split; [exact Hexpanded |].
  destruct Hexpanded as [_ [Hvis [Hbest Hstart]]].
  destruct (best_subgraph st) as [| b tl] eqn:Eb; simpl in Hrest.
  - left. split; [reflexivity |]. inversion Hrest; reflexivity.
  - right. apply bind_Ok in Hrest. destruct Hrest as [m' [Hmark Hacc']].
    inversion Hacc'; subst acc'; simpl.
    assert (Hne : fold_left (choose T graph) (visited st) [] <> [])
      by (rewrite <- Hbest; discriminate).
    destruct (fold_choose_In T graph (visited st) Hne) as [Hin _].
    rewrite <- Hbest in Hin.
    assert (Hst : started T graph (fst acc) k).
    { apply Hstart. intros E. rewrite E in Hin. contradiction. }
    rewrite Forall_forall in Hvis.
    destruct (extends_hd T graph (fst acc) k _ (Hvis _ Hin)) as [tl' Htl].
    repeat split; auto; try apply Hst.
    exists tl'. exact Htl.
Qed.

Lemma PatternMatch_scan_down (fuel : nat) (k : Z) (d : nat)
    (acc : list bool * list (list Z)) :
  0 <= k ->
  PatternMatch_scan T graph fuel (k + Z.of_nat d) = Ok acc ->
  exists acc_k, PatternMatch_scan T graph fuel k = Ok acc_k.
Proof.
  intros Hk. revert acc. induction d as [| d IH]; intros acc Hscan.
  - replace (k + Z.of_nat 0) with k in Hscan by lia. exists acc. exact Hscan.
  - replace (k + Z.of_nat (S d)) with ((k + Z.of_nat d) + 1) in Hscan by lia.
    rewrite PatternMatch_scan_succ in Hscan by lia.
    apply bind_Ok in Hscan. destruct Hscan as [acc0 [Hscan0 _]].
    apply (IH acc0 Hscan0).
Qed.

(** The scan at every start index of a search that returns. *)
Lemma PatternMatch_scan_at (matches : list (list Z)) (k : Z) :
  PatternMatch T graph = Ok matches ->
  0 <= k < Z.of_nat (size graph) ->
  exists acc acc',
    PatternMatch_scan T graph (S (size graph)) k = Ok acc
    /\ PatternMatch_iter T graph (S (size graph)) k acc = Ok acc'
    /\ PatternMatch_scan T graph (S (size graph)) (k + 1) = Ok acc'
    /\ scan_inv T graph k acc
    /\ scan_inv T graph (k + 1) acc'.
Proof.
  intros Hpm Hk.
  destruct (PatternMatch_scan_inv T graph matches Hpm) as [matched [Hscan _]].
  destruct (PatternMatch_scan_down (S (size graph)) (k + 1)
              (Z.to_nat (Z.of_nat (size graph) - (k + 1))) (matched, matches))
    as [acc' Hacc']; [lia | |].
  { replace (k + 1 + Z.of_nat (Z.to_nat (Z.of_nat (size graph) - (k + 1))))
      with (Z.of_nat (size graph)) by lia.
    exact Hscan. }
  pose proof Hacc' as Hsucc.
  rewrite PatternMatch_scan_succ in Hsucc by lia.
  apply bind_Ok in Hsucc. destruct Hsucc as [acc [Hacc Hiter]].
  exists acc, acc'.
  split; [exact Hacc |]. split; [exact Hiter |]. split; [exact Hacc' |]. split.
  - pose proof (PatternMatch_scan_post T graph (S (size graph)) (Z.to_nat k)) as Hp.
    rewrite Z2Nat.id in Hp by lia.
    apply (post_Ok False _ _ acc (Hp (Nat.le_succ_diag_r _)) Hacc).
  - pose proof (PatternMatch_scan_post T graph (S (size graph)) (Z.to_nat (k + 1)))
      as Hp.
    rewrite Z2Nat.id in Hp by lia.
    apply (post_Ok False _ _ acc' (Hp (Nat.le_succ_diag_r _)) Hacc').
Qed.

Lemma PatternMatch_recorded (matches : list (list Z)) (m : list Z) :
  PatternMatch T graph = Ok matches -> In m matches ->
  recorded T graph (Z.of_nat (size graph)) m.
Proof.
  intros Hpm Hin.
  destruct (PatternMatch_scan_inv T graph matches Hpm)
    as [matched [_ [_ [_ [_ [Hrec _]]]]]].
  simpl in Hrec. rewrite Forall_forall in Hrec. apply Hrec. exact Hin.
Qed.

(** C1. Every match returned by [PatternMatch] holds pairwise distinct
    node indices, each of its elements was accepted by [PatternRule]
    against the prefix that precedes it, and the whole match satisfies
    [ValidatorRule]. *)
Theorem PatternMatch_matches_accepted (matches : list (list Z)) (m : list Z) :
  PatternMatch T graph = Ok matches ->
  In m matches ->
  NoDup m
  /\ (forall pre x post,
        m = pre ++ x :: post -> PatternRule T graph pre x = true)
  /\ ValidatorRule T graph m = true.
Proof.
  intros Hpm Hin.
  pose proof (PatternMatch_recorded matches m Hpm Hin) as Hrec.
  destruct (recorded_steps T graph _ m Hrec) as [matched0 [_ [[Hnd _] Hsteps]]].
  split; [exact Hnd |]. split.
  - intros pre x post Hm. apply (Hsteps pre x post Hm).
  - destruct Hrec as [? [? [_ [_ [_ [_ Hval]]]]]]. exact Hval.
Qed.

(** C2. No two matches returned by one call of [PatternMatch] share a
    node index.  At every start index [k] the registry marks exactly the
    members of the matches recorded so far, before the iteration and
    again after it, and no working subgraph of the expansion from [k]
    holds a node that the registry marked. *)
Theorem PatternMatch_mutual_exclusion (matches : list (list Z)) :
  PatternMatch T graph = Ok matches ->
  (forall i j mi mj x,
      nth_error matches i = Some mi -> nth_error matches j = Some mj ->
      i <> j -> In x mi -> ~ In x mj)
  /\ forall k, 0 <= k < Z.of_nat (size graph) ->
       exists matched found st matched' found',
         PatternMatch_scan T graph (S (size graph)) k = Ok (matched, found)
         /\ expand_start T graph matched (S (size graph)) k = Ok st
         /\ PatternMatch_scan T graph (S (size graph)) (k + 1) = Ok (matched', found')
         /\ (forall x, vector_at matched x = Ok true <-> In x (concat found))
         /\ (forall s x, In s (visited st) -> In x s -> vector_at matched x = Ok false)
         /\ (forall x, vector_at matched' x = Ok true <-> In x (concat found')).
Proof.
  intros Hpm. split.
  - destruct (PatternMatch_scan_inv T graph matches Hpm)
      as [matched [_ [_ [_ [Hnd _]]]]].
    apply NoDup_concat_disjoint. exact Hnd.
  - intros k Hk.
    destruct (PatternMatch_scan_at matches k Hpm Hk)
      as [[matched found] [[matched' found'] [Hacc [Hiter [Hacc' [Hinv Hinv']]]]]].
    destruct (PatternMatch_iter_cases _ _ _ _ Hiter)
      as [st [Hexp [[_ [Hvis [_ Hstart]]] _]]].
    simpl in *.
    exists matched, found, st, matched', found'.
    repeat split; auto; try apply Hinv; try apply Hinv'.
    intros s x Hs Hx. rewrite Forall_forall in Hvis.
    apply (extends_unmatched T graph matched k s); auto.
    apply Hstart. intros E. rewrite E in Hs. contradiction.
Qed.

(** C7. Under [SORTED_WRT_EXECUTION_ORDER] every working subgraph that
    an expansion goes through was extended only by unmatched indices
    greater than its last element, and every match returned by
    [PatternMatch] has strictly increasing node indices.  ([PatternMatch]
    never expands the empty subgraph, for which [start_idx] is 0.) *)
Theorem PatternMatch_sorted_matches :
  pattern_match_type_ T = SORTED_WRT_EXECUTION_ORDER ->
  (forall matched fuel idx st s pre x post,
      expand_start T graph matched fuel idx = Ok st ->
      In s (visited st) -> s = pre ++ x :: post -> pre <> [] ->
      last pre 0 < x /\ vector_at matched x = Ok false)
  /\ (forall matches m,
        PatternMatch T graph = Ok matches -> In m matches ->
        StronglySorted Z.lt m).
Proof.
  intros Hty. split.
  - intros matched fuel idx st s pre x post Hexp Hs Hm Hne.
    pose proof (post_Ok True _ _ st (expand_start_partial T graph matched fuel idx) Hexp)
      as [_ [Hvis _]].
    rewrite Forall_forall in Hvis.
    destruct (extends_prefix T graph matched [idx] s (Hvis s Hs) pre x post Hm)
      as [_ [Hat [_ Hstrat]]].
    { destruct pre; [contradiction Hne; reflexivity | simpl; lia]. }
    unfold strategy_candidate in Hstrat. rewrite Hty in Hstrat.
    destruct Hstrat as [_ [E | Hlt]]; [contradiction | split; assumption].
  - intros matches m Hpm Hin.
    pose proof (PatternMatch_recorded matches m Hpm Hin) as Hrec.
    destruct (recorded_steps T graph _ m Hrec) as [matched0 [_ [[_ [_ Hsorted]] _]]].
    apply Hsorted. exact Hty.
Qed.

(** C8. Under [CONNECTED_SUBGRAPH] every index appended to a working
    subgraph is a child or a parent of a node that the subgraph already
    holds, and every match returned by [PatternMatch] is connected over
    the parent/child adjacency of the graph. *)
Theorem PatternMatch_connected_matches :
  pattern_match_type_ T = CONNECTED_SUBGRAPH ->
  (forall matched fuel idx st s,
      expand_start T graph matched fuel idx = Ok st ->
      In s (visited st) -> attached graph s)
  /\ (forall matches m,
        PatternMatch T graph = Ok matches -> In m matches ->
        attached graph m /\ connected graph m).
Proof.
  intros Hty.
  assert (Hatt : forall matched idx s,
             extends T graph matched [idx] s -> attached graph s).
  { intros matched idx s He pre x post Hm Hne.
    destruct (extends_prefix T graph matched [idx] s He pre x post Hm)
      as [_ [_ [_ Hstrat]]].
    { destruct pre; [contradiction Hne; reflexivity | simpl; lia]. }
    unfold strategy_candidate in Hstrat. rewrite Hty in Hstrat.
    destruct Hstrat as [_ Hex]. exact Hex. }
  split.
  - intros matched fuel idx st s Hexp Hs.
    pose proof (post_Ok True _ _ st (expand_start_partial T graph matched fuel idx) Hexp)
      as [_ [Hvis _]].
    rewrite Forall_forall in Hvis. apply (Hatt matched idx s). apply Hvis. exact Hs.
  - intros matches m Hpm Hin.
    destruct (PatternMatch_recorded matches m Hpm Hin)
      as [matched0 [idx [_ [_ [_ [He _]]]]]].
    pose proof (Hatt matched0 idx m He) as Ha.
    split; [exact Ha | apply attached_connected; exact Ha].
Qed.

(** C10. Every match returned by [PatternMatch] is non-empty and begins
    with a start index that [PatternRule] accepts against the empty
    subgraph; the first elements of the matches increase strictly along
    the list; the iteration over start index [k] appends at most one
    match, which begins with [k], and none when [k] is already matched
    or is rejected by [PatternRule]. *)
Theorem PatternMatch_matches_start (matches : list (list Z)) :
  PatternMatch T graph = Ok matches ->
  (forall m, In m matches ->
             exists tl, m = hd 0 m :: tl
                        /\ 0 <= hd 0 m < Z.of_nat (size graph)
                        /\ PatternRule T graph [] (hd 0 m) = true)
  /\ StronglySorted Z.lt (map (hd 0) matches)
  /\ (forall k, 0 <= k < Z.of_nat (size graph) ->
        exists matched found matched' found',
          PatternMatch_scan T graph (S (size graph)) k = Ok (matched, found)
          /\ PatternMatch_scan T graph (S (size graph)) (k + 1) = Ok (matched', found')
          /\ (found' = found \/ exists tl, found' = found ++ [k :: tl])
          /\ (vector_at matched k = Ok true \/ PatternRule T graph [] k = false ->
              matched' = matched /\ found' = found)).
Proof.
  intros Hpm. split; [| split].
  - intros m Hin.
    pose proof (PatternMatch_recorded matches m Hpm Hin) as Hrec.
    destruct (recorded_hd T graph _ m Hrec) as [tl [Hm Hrange]].
    destruct (recorded_steps T graph _ m Hrec) as [matched0 [_ [_ Hsteps]]].
    exists tl. split; [exact Hm |]. split; [exact Hrange |].
    apply (Hsteps [] (hd 0 m) tl Hm).
  - destruct (PatternMatch_scan_inv T graph matches Hpm)
      as [matched [_ [_ [_ [_ [_ Hsorted]]]]]].
    exact Hsorted.
  - intros k Hk.
    destruct (PatternMatch_scan_at matches k Hpm Hk)
      as [[matched found] [[matched' found'] [Hacc [Hiter [Hacc' _]]]]].
    exists matched, found, matched', found'.
    split; [exact Hacc |]. split; [exact Hacc' |].
    destruct (PatternMatch_iter_cases _ _ _ _ Hiter)
      as [st [_ [_ [[_ Hsame] | [[Hat Hrule] [_ [[tl Htl] [_ Happ]]]]]]]];
      simpl in *.
    + inversion Hsame; subst. split; [left; reflexivity | auto].
    + split.
      * right. exists tl. rewrite Happ, Htl. reflexivity.
      * intros [Hm | Hr]; congruence.
Qed.




End MatcherClaims.

(** * Properties of the apply phase *)

Section ApplyClaims.

Context {Graph : Type} `{GraphOps Graph}.
Variable T : Transform Graph.

Lemma is_match_active_forallb (g : Graph) (m : list Z) :
  is_match_active g m = forallb (is_node_active g) m.
Proof.
  unfold is_match_active.
  assert (Hgen : forall flag,
             fold_left (fun flag idx => if negb (is_node_active g idx)
                                        then false else flag) m flag
             = flag && forallb (is_node_active g) m).
  { induction m as [| idx m IH]; intros flag; simpl.
    - rewrite andb_true_r. reflexivity.
    - rewrite IH. destruct (is_node_active g idx), flag; reflexivity. }
  apply Hgen.
Qed.

Lemma is_match_active_true (g : Graph) (m : list Z) :
  is_match_active g m = true <-> forall idx, In idx m -> is_node_active g idx = true.
Proof.
  rewrite is_match_active_forallb, forallb_forall. reflexivity.
Qed.

Lemma is_match_active_false (g : Graph) (m : list Z) :
  is_match_active g m = false <->
  exists idx, In idx m /\ is_node_active g idx = false.
Proof.
  rewrite is_match_active_forallb. split.
  - intros Hf. induction m as [| idx m IH]; simpl in Hf; [discriminate |].
    destruct (is_node_active g idx) eqn:E.
    + destruct (IH Hf) as [i [Hi Hact]]. exists i. split; [right |]; assumption.
    + exists idx. split; [left; reflexivity | exact E].
  - intros [idx [Hin Hact]]. destruct (forallb (is_node_active g) m) eqn:E; [| reflexivity].
    rewrite forallb_forall in E. rewrite (E idx Hin) in Hact. discriminate.
Qed.

Lemma ReplacePattern_from_app (l1 l2 : list (list Z)) (g : Graph)
    (calls : list (list Z)) :
  ReplacePattern_from T (l1 ++ l2) g calls
  = match thrown (ReplacePattern_from T l1 g calls) with
    | None => ReplacePattern_from T l2
                (graph_after (ReplacePattern_from T l1 g calls))
                (invoked (ReplacePattern_from T l1 g calls))
    | Some _ => ReplacePattern_from T l1 g calls
    end.
Proof.
  revert g calls. induction l1 as [| m l1 IH]; intros g calls; simpl.
  - reflexivity.
  - destruct (is_match_active g m); [| apply IH].
    destruct (fst (ReplaceRule T m g)); [apply IH | reflexivity].
Qed.

Lemma ReplacePattern_from_rewritten (matches : list (list Z)) (g0 g : Graph)
    (calls : list (list Z)) :
  g = rewritten T g0 calls ->
  graph_after (ReplacePattern_from T matches g calls)
  = rewritten T g0 (invoked (ReplacePattern_from T matches g calls)).
Proof.
  revert g calls. induction matches as [| m matches IH]; intros g calls Hg; simpl.
  - exact Hg.
  - assert (Hstep : snd (ReplaceRule T m g) = rewritten T g0 (calls ++ [m])).
    { unfold rewritten. rewrite fold_left_app. simpl. rewrite Hg. reflexivity. }
    destruct (is_match_active g m); [| apply IH; exact Hg].
    destruct (fst (ReplaceRule T m g)); [apply IH; exact Hstep | exact Hstep].
Qed.

(** C3. [ReplacePattern] takes the matches in the order of the list.
    When it reaches a match [m] with the graph [g1], it calls
    [ReplaceRule] on [m] if every member of [m] is active in [g1]; if
    some member is inactive it leaves graph and calls as they are,
    throws nothing and goes on with the next match. *)
Theorem ReplacePattern_all_or_nothing (pre : list (list Z)) (m : list Z)
    (post : list (list Z)) (g g1 : Graph) (calls : list (list Z)) :
  ReplacePattern T pre g = mkOutcome g1 None calls ->
  ((forall idx, In idx m -> is_node_active g1 idx = true) ->
   ReplacePattern T (pre ++ [m]) g
   = mkOutcome (snd (ReplaceRule T m g1))
       (if fst (ReplaceRule T m g1) then None else Some replace_failed)
       (calls ++ [m]))
  /\ ((exists idx, In idx m /\ is_node_active g1 idx = false) ->
      ReplacePattern T (pre ++ [m]) g = mkOutcome g1 None calls
      /\ ReplacePattern T (pre ++ m :: post) g = ReplacePattern_from T post g1 calls).
Proof.
  unfold ReplacePattern. intros Hpre. split.
  - intros Hact. apply is_match_active_true in Hact.
    rewrite ReplacePattern_from_app, Hpre. simpl. rewrite Hact.
    destruct (fst (ReplaceRule T m g1)); reflexivity.
  - intros Hinact. apply is_match_active_false in Hinact.
    rewrite !ReplacePattern_from_app, Hpre. simpl. rewrite Hinact. auto.
Qed.

(** C4. When [ReplaceRule] returns false on a match whose members are
    all active, [ReplacePattern] throws at once: the graph is the one
    that the earlier calls and the failing call have left, nothing is
    undone, and no later match is looked at. *)
Theorem ReplacePattern_aborts (pre : list (list Z)) (m : list Z)
    (post : list (list Z)) (g g1 : Graph) (calls : list (list Z)) :
  ReplacePattern T pre g = mkOutcome g1 None calls ->
  (forall idx, In idx m -> is_node_active g1 idx = true) ->
  fst (ReplaceRule T m g1) = false ->
  ReplacePattern T (pre ++ m :: post) g
  = mkOutcome (snd (ReplaceRule T m g1)) (Some replace_failed) (calls ++ [m])
  /\ g1 = rewritten T g calls
  /\ snd (ReplaceRule T m g1) = rewritten T g (calls ++ [m]).
Proof.
  unfold ReplacePattern. intros Hpre Hact Hfalse.
  apply is_match_active_true in Hact.
  assert (Hg1 : g1 = rewritten T g calls).
  { pose proof (ReplacePattern_from_rewritten pre g g [] eq_refl) as Hr.
    rewrite Hpre in Hr. exact Hr. }
  split; [| split].
  - rewrite ReplacePattern_from_app, Hpre. simpl. rewrite Hact, Hfalse. reflexivity.
  - exact Hg1.
  - unfold rewritten. rewrite fold_left_app. simpl. rewrite Hg1. reflexivity.
Qed.

End ApplyClaims.

Example scenario_A :
  PatternMatch (singles CONNECTED_SUBGRAPH) chain = Ok [[0]; [1]; [2]].
Proof. reflexivity. Qed.

Example scenario_B :
  PatternMatch (at_least 2 CONNECTED_SUBGRAPH) chain = Ok [[0; 1; 2]].
Proof. reflexivity. Qed.

Example scenario_C :
  ReplacePattern failing_on_1 [[0]; [1]; [2]] chain
  = mkOutcome (deactivate [0; 1] chain) (Some replace_failed) [[0]; [1]].
Proof. reflexivity. Qed.

Example scenario_D :
  ReplacePattern (singles GENERAL) [[0; 1]; [1; 2]] chain
  = mkOutcome (deactivate [0; 1] chain) None [[0; 1]].
Proof. reflexivity. Qed.

Lemma PatternMatch_matches_accepted_witness :
  PatternMatch (at_least 2 GENERAL) chain = Ok [[0; 1; 2]]
  /\ NoDup [0; 1; 2]
  /\ (forall pre x post,
        [0; 1; 2] = pre ++ x :: post ->
        PatternRule (at_least 2 GENERAL) chain pre x = true)
  /\ ValidatorRule (at_least 2 GENERAL) chain [0; 1; 2] = true.
Proof.
  split; [reflexivity |].
  apply (PatternMatch_matches_accepted (at_least 2 GENERAL) chain [[0; 1; 2]] [0; 1; 2]).
  - reflexivity.
  - left. reflexivity.
Defined.

Lemma PatternMatch_mutual_exclusion_witness :
  PatternMatch (singles CONNECTED_SUBGRAPH) chain = Ok [[0]; [1]; [2]]
  /\ forall i j mi mj x,
       nth_error [[0]; [1]; [2]] i = Some mi ->
       nth_error [[0]; [1]; [2]] j = Some mj ->
       i <> j -> In x mi -> ~ In x mj.
Proof.
  split; [reflexivity |].
  apply (PatternMatch_mutual_exclusion (singles CONNECTED_SUBGRAPH) chain
           [[0]; [1]; [2]]).
  reflexivity.
Defined.

Lemma ReplacePattern_all_or_nothing_witness :
  ReplacePattern (singles GENERAL) [[0; 1]] chain
  = mkOutcome (deactivate [0; 1] chain) None [[0; 1]]
  /\ ReplacePattern (singles GENERAL) ([[0; 1]] ++ [[1; 2]]) chain
     = mkOutcome (deactivate [0; 1] chain) None [[0; 1]].
Proof.
  split; [reflexivity |].
  apply (ReplacePattern_all_or_nothing (singles GENERAL)
           [[0; 1]] [1; 2] [] chain (deactivate [0; 1] chain) [[0; 1]]).
  - reflexivity.
  - exists 1. split; [simpl; auto | reflexivity].
Defined.

Lemma ReplacePattern_aborts_witness :
  ReplacePattern failing_on_1 ([[0]] ++ [1] :: [[2]]) chain
  = mkOutcome (deactivate [1] (deactivate [0] chain)) (Some replace_failed)
      ([[0]] ++ [[1]]).
Proof.
  apply (ReplacePattern_aborts failing_on_1
           [[0]] [1] [[2]] chain (deactivate [0] chain) [[0]]).
  - reflexivity.
  - intros idx [Hidx | []]. subst. reflexivity.
  - reflexivity.
Defined.




Lemma PatternMatch_sorted_matches_witness :
  PatternMatch (at_least 2 SORTED_WRT_EXECUTION_ORDER) chain = Ok [[0; 1; 2]]
  /\ StronglySorted Z.lt [0; 1; 2].
Proof.
  split; [reflexivity |].
  apply (proj2 (PatternMatch_sorted_matches (at_least 2 SORTED_WRT_EXECUTION_ORDER)
                  chain eq_refl) [[0; 1; 2]] [0; 1; 2]).
  - reflexivity.
  - left. reflexivity.
Defined.

Lemma PatternMatch_connected_matches_witness :
  PatternMatch (at_least 2 CONNECTED_SUBGRAPH) chain = Ok [[0; 1; 2]]
  /\ attached chain [0; 1; 2] /\ connected chain [0; 1; 2].
Proof.
  split; [reflexivity |].
  apply (proj2 (PatternMatch_connected_matches (at_least 2 CONNECTED_SUBGRAPH)
                  chain eq_refl) [[0; 1; 2]] [0; 1; 2]).
  - reflexivity.
  - left. reflexivity.
Defined.

Lemma PatternMatch_matches_start_witness :
  PatternMatch (singles CONNECTED_SUBGRAPH) chain = Ok [[0]; [1]; [2]]
  /\ StronglySorted Z.lt (map (hd 0) [[0]; [1]; [2]]).
Proof.
  split; [reflexivity |].
  apply (PatternMatch_matches_start (singles CONNECTED_SUBGRAPH) chain
           [[0]; [1]; [2]]).
  reflexivity.
Defined.

(** * Exceptions of the matcher *)

Lemma throws_only_bind {A B : Type} (E : failure -> Prop)
    (m : result A) (k : A -> result B) :
  throws_only E m -> (forall a, m = Ok a -> throws_only E (k a)) ->
  throws_only E (bind m k).
Proof.
  destruct m as [a | e |]; simpl; auto.
Qed.

Lemma throws_only_for_each {A S : Type} (E : failure -> Prop) (Inv : S -> Prop)
    (body : A -> S -> result S) (l : list A) :
  (forall a s, In a l -> Inv s -> throws_only E (body a s)) ->
  (forall a s s', In a l -> Inv s -> body a s = Ok s' -> Inv s') ->
  forall s, Inv s -> throws_only E (for_each l body s).
Proof.
  induction l as [| a l IH]; intros Hthrow Hinv s Hs; simpl.
  - exact Logic.I.
  - apply throws_only_bind.
    + apply Hthrow; [left; reflexivity | exact Hs].
    + intros s' Hs'. apply IH.
      * intros b t Hb. apply Hthrow. right; exact Hb.
      * intros b t t' Hb. apply Hinv. right; exact Hb.
      * apply (Hinv a s s' (or_introl eq_refl) Hs Hs').
Qed.

Lemma vector_at_Throw {A : Type} (v : list A) (i : Z) (e : failure) :
  vector_at v i = Throw e ->
  e = out_of_range /\ ~ 0 <= i < Z.of_nat (length v).
Proof.
  unfold vector_at. destruct (Z.ltb_spec i 0).
  - intros Heq. inversion Heq. split; [reflexivity | lia].
  - destruct (nth_error v (Z.to_nat i)) eqn:E; [discriminate |].
    intros Heq. inversion Heq. split; [reflexivity |].
    apply nth_error_None in E. lia.
Qed.

Lemma vector_index_Ok (v : list Z) (i : Z) :
  0 <= i < Z.of_nat (length v) -> exists x, vector_index v i = Ok x.
Proof.
  intros Hi. unfold vector_index. destruct (Z.ltb_spec i 0); [lia |].
  destruct (nth_error v (Z.to_nat i)) eqn:E.
  - exists z. reflexivity.
  - apply nth_error_None in E. lia.
Qed.

Lemma last_In (l : list Z) (d : Z) : l <> [] -> In (last l d) l.
Proof.
  induction l as [| a l IH]; intros Hne; [contradiction Hne; reflexivity |].
  destruct l as [| b l'].
  - left. reflexivity.
  - right. apply IH. discriminate.
Qed.

Lemma start_idx_nonneg (sub : list Z) :
  (forall x, In x sub -> 0 <= x) ->
  0 <= (if (0 <? length sub)%nat then last sub 0 + 1 else 0).
Proof.
  intros Hall. destruct sub as [| z sub'].
  - simpl. lia.
  - assert (Hl : 0 <= last (z :: sub') 0).
    { apply Hall. apply last_In. discriminate. }
    change (0 <? length (z :: sub'))%nat with true. cbv iota. lia.
Qed.

Section Throws.

Context {Graph : Type} `{GraphOps Graph}.
Variable T : Transform Graph.
Variable graph : Graph.
Variable matched : list bool.

Hypothesis matched_size : length matched = size graph.

Section Call.

Variables P P' : list Z -> Prop.
Variable rec : State -> result State.

Hypothesis rec_post :
  forall s, P (subgraph s) ->
            post True (grown T graph matched (subgraph s) s) (rec s).
Hypothesis rec_throws :
  forall s, P (subgraph s) -> throws_only (search_failure T graph) (rec s).
Hypothesis P_step :
  forall sub j, P' sub -> candidate T graph matched sub j -> P (sub ++ [j]).
Hypothesis P'_range : forall sub, P' sub -> Forall (in_graph graph) sub.

Lemma try_append_throws (sub : list Z) (s : State) (j : Z) :
  P' sub -> subgraph s = sub ->
  (vector_at matched j = Ok false -> strategy_candidate T graph sub j) ->
  (forall e, vector_at matched j = Throw e -> search_failure T graph e) ->
  throws_only (search_failure T graph) (try_append T graph matched rec j s).
Proof.
  intros HP Hsub Hstrat Hoor. unfold try_append.
  destruct (vector_at matched j) as [m | e |] eqn:Hat; simpl; auto.
  destruct m; simpl; [exact I |].
  rewrite Hsub. destruct (PatternRule T graph sub j) eqn:Hrule; [| exact I].
  assert (Hc : candidate T graph matched sub j) by (repeat split; auto).
  assert (HPj : P (subgraph (push_back j s))).
  { simpl. rewrite Hsub. apply P_step; assumption. }
  apply throws_only_bind.
  - apply rec_throws. exact HPj.
  - intros s1 Hs1.
    pose proof (post_Ok True _ _ s1 (rec_post _ HPj) Hs1) as [Hs _].
    simpl in Hs. rewrite Hsub in Hs.
    rewrite (pop_back_snoc s1 sub j Hs). exact I.
Qed.

Lemma try_append_keeps (sub : list Z) (s s' : State) (j : Z) :
  P' sub -> subgraph s = sub ->
  (vector_at matched j = Ok false -> strategy_candidate T graph sub j) ->
  try_append T graph matched rec j s = Ok s' -> subgraph s' = sub.
Proof.
  intros HP Hsub Hstrat Hrun.
  assert (Hg : grown T graph matched sub s s).
  { rewrite <- Hsub. apply grown_refl. }
  pose proof (post_Ok True _ _ s'
                (try_append_post T graph matched True P P' rec rec_post P_step
                   sub s s j HP Hg Hstrat) Hrun) as [Hs _].
  exact Hs.
Qed.

Lemma try_absent_throws (sub : list Z) (s : State) (j : Z) :
  P' sub -> subgraph s = sub ->
  (vector_at matched j = Ok false -> ~ In j sub -> strategy_candidate T graph sub j) ->
  (forall e, vector_at matched j = Throw e -> search_failure T graph e) ->
  throws_only (search_failure T graph) (try_absent T graph matched rec j s).
Proof.
  intros HP Hsub Hstrat Hoor. unfold try_absent.
  destruct (contains (subgraph s) j) eqn:Hc; simpl; [exact I |].
  apply (try_append_throws sub); auto.
  intros Hat. apply Hstrat; [exact Hat |].
  rewrite <- Hsub. apply contains_false. exact Hc.
Qed.

Lemma try_absent_keeps (sub : list Z) (s s' : State) (j : Z) :
  P' sub -> subgraph s = sub ->
  (vector_at matched j = Ok false -> ~ In j sub -> strategy_candidate T graph sub j) ->
  try_absent T graph matched rec j s = Ok s' -> subgraph s' = sub.
Proof.
  intros HP Hsub Hstrat Hrun.
  assert (Hg : grown T graph matched sub s s).
  { rewrite <- Hsub. apply grown_refl. }
  pose proof (post_Ok True _ _ s'
                (try_absent_post T graph matched True P P' rec rec_post P_step
                   sub s s j HP Hg Hstrat) Hrun) as [Hs _].
  exact Hs.
Qed.

(** A key of a node of the working subgraph that [matched.at] refuses
    is a dangling neighbour. *)
Lemma neighbour_out_of_range (sub : list Z) (x j : Z) (e : failure) :
  pattern_match_type_ T = CONNECTED_SUBGRAPH ->
  P' sub -> In x sub -> adjacent graph x j ->
  vector_at matched j = Throw e -> search_failure T graph e.
Proof.
  intros Hty HP Hx Hadj Hat. apply vector_at_Throw in Hat.
  destruct Hat as [He Hrange]. left. split; [exact He |]. split; [exact Hty |].
  exists x, j. split; [| split; [exact Hadj |]].
  - pose proof (P'_range sub HP) as Hall. rewrite Forall_forall in Hall.
    apply Hall. exact Hx.
  - unfold in_graph. rewrite <- matched_size. exact Hrange.
Qed.

Lemma TryNeighbors_throws (sub : list Z) (x : Z)
    (neighbors : list (Z * list string)) (s : State) :
  pattern_match_type_ T = CONNECTED_SUBGRAPH ->
  P' sub -> In x sub ->
  (forall j, In j (map fst neighbors) -> adjacent graph x j) ->
  subgraph s = sub ->
  throws_only (search_failure T graph)
    (TryNeighbors T graph matched rec neighbors s).
Proof.
  intros Hty HP Hx Hadj Hsub. unfold TryNeighbors.
  assert (Hstrat : forall edge, In edge neighbors ->
             vector_at matched (fst edge) = Ok false -> ~ In (fst edge) sub ->
             strategy_candidate T graph sub (fst edge)).
  { intros edge Hedge _ Hnin. unfold strategy_candidate. rewrite Hty.
    split; [exact Hnin |]. exists x. split; [exact Hx |].
    apply Hadj. apply in_map. exact Hedge. }
  apply throws_only_for_each with (Inv := fun s' => subgraph s' = sub);
    [| | exact Hsub].
  - intros edge s' Hedge Hs'. apply (try_absent_throws sub); auto.
    intros e. apply (neighbour_out_of_range sub x (fst edge)); auto.
    apply Hadj. apply in_map. exact Hedge.
  - intros edge s' s'' Hedge Hs' Hrun.
    apply (try_absent_keeps sub s' s'' (fst edge)); auto.
Qed.

Lemma TryNeighbors_keeps (sub : list Z) (x : Z)
    (neighbors : list (Z * list string)) (s s' : State) :
  pattern_match_type_ T = CONNECTED_SUBGRAPH ->
  P' sub -> In x sub ->
  (forall j, In j (map fst neighbors) -> adjacent graph x j) ->
  subgraph s = sub ->
  TryNeighbors T graph matched rec neighbors s = Ok s' -> subgraph s' = sub.
Proof.
  intros Hty HP Hx Hadj Hsub Hrun.
  assert (Hg : grown T graph matched sub s s).
  { rewrite <- Hsub. apply grown_refl. }
  assert (Hpost : post True (grown T graph matched sub s)
                    (TryNeighbors T graph matched rec neighbors s)).
  { apply (TryNeighbors_post T graph matched True P P' rec rec_post P_step
             sub s s neighbors HP Hg).
    intros j Hj _ Hnin. unfold strategy_candidate. rewrite Hty.
    split; [exact Hnin |]. exists x. split; [exact Hx | apply Hadj; exact Hj]. }
  pose proof (post_Ok True _ _ s' Hpost Hrun) as [Hs _]. exact Hs.
Qed.

Lemma connected_step_throws (sub : list Z) (s : State) (i : Z) :
  pattern_match_type_ T = CONNECTED_SUBGRAPH ->
  0 <= i < Z.of_nat (length sub) ->
  P' sub -> subgraph s = sub ->
  throws_only (search_failure T graph)
    (connected_step T graph matched rec (length sub) i s).
Proof.
  intros Hty Hi HP Hsub. unfold connected_step. rewrite Hsub.
  destruct (vector_index_Ok sub i Hi) as [x Hx]. rewrite Hx. simpl.
  assert (Hxin : In x sub).
  { unfold vector_index in Hx. destruct (i <? 0); [discriminate |].
    destruct (nth_error sub (Z.to_nat i)) eqn:E; [| discriminate].
    inversion Hx; subst. eapply nth_error_In; eassumption. }
  apply throws_only_bind.
  { apply (TryNeighbors_throws sub x); auto. intros j Hj. left; exact Hj. }
  intros s2 Hs2.
  assert (Hsub2 : subgraph s2 = sub).
  { apply (TryNeighbors_keeps sub x (children (node graph x)) s s2 Hty HP Hxin); auto.
    intros j Hj. left; exact Hj. }
  rewrite Hsub2, Nat.eqb_refl. simpl.
  apply throws_only_bind.
  { apply (TryNeighbors_throws sub x); auto. intros j Hj. right; exact Hj. }
  intros s3 Hs3.
  assert (Hsub3 : subgraph s3 = sub).
  { apply (TryNeighbors_keeps sub x (parents (node graph x)) s2 s3 Hty HP Hxin); auto.
    intros j Hj. right; exact Hj. }
  rewrite Hsub3, Nat.eqb_refl. simpl. exact I.
Qed.

Lemma in_graph_at (j : Z) (e : failure) :
  in_graph graph j -> vector_at matched j = Throw e -> search_failure T graph e.
Proof.
  intros Hj Hat. apply vector_at_Throw in Hat. destruct Hat as [_ Hrange].
  unfold in_graph in Hj. rewrite <- matched_size in Hj. contradiction.
Qed.

Lemma PatternMatchHelper_body_throws (st : State) :
  P' (subgraph st) ->
  throws_only (search_failure T graph)
    (PatternMatchHelper_body T graph matched rec st).
Proof.
  intros HP. unfold PatternMatchHelper_body.
  pose proof (grown_entry T graph matched st) as Hentry.
  set (st1 := update_best T graph (log_visit st)) in *.
  assert (Hsub1 : subgraph st1 = subgraph st) by (destruct Hentry; assumption).
  rewrite Hsub1.
  set (sub := subgraph st) in *.
  pose proof (P'_range sub HP) as Hrange. rewrite Forall_forall in Hrange.
  destruct (pattern_match_type_ T) eqn:Hty.
  - apply throws_only_for_each with (Inv := fun s => subgraph s = sub);
      [| | exact Hsub1].
    + intros i s Hi Hs. apply In_int_range in Hi.
      apply connected_step_throws; auto.
    + intros i s s' Hi Hs Hrun.
      assert (Hg : grown T graph matched sub s s).
      { rewrite <- Hs. apply grown_refl. }
      pose proof (post_Ok True _ _ s'
                    (connected_step_post T graph matched True P P' rec rec_post P_step
                       sub s s i Hty HP Hg) Hrun) as [Hs' _].
      exact Hs'.
  - assert (Hstart : 0 <= (if (0 <? length sub)%nat then last sub 0 + 1 else 0)).
    { apply start_idx_nonneg. intros x Hx. apply (Hrange x Hx). }
    assert (Hstrat : forall i,
               In i (int_range (if (0 <? length sub)%nat then last sub 0 + 1 else 0)
                       (Z.of_nat (size graph))) ->
               strategy_candidate T graph sub i).
    { intros i Hi. unfold strategy_candidate. rewrite Hty.
      apply In_int_range in Hi.
      destruct sub as [| z sub'] eqn:Esub; simpl in Hi.
      - split; [apply Hi | left; reflexivity].
      - split; [apply Hi | right; simpl; lia]. }
    apply throws_only_for_each with (Inv := fun s => subgraph s = sub);
      [| | exact Hsub1].
    + intros i s Hi Hs. apply (try_append_throws sub); auto.
      intros e. apply in_graph_at. apply In_int_range in Hi.
      unfold in_graph. lia.
    + intros i s s' Hi Hs Hrun. apply (try_append_keeps sub s s' i); auto.
  - assert (Hstrat : forall i,
               In i (int_range 0 (Z.of_nat (size graph))) -> ~ In i sub ->
               strategy_candidate T graph sub i).
    { intros i Hi Hnin. unfold strategy_candidate. rewrite Hty.
      apply In_int_range in Hi. split; [exact Hnin | lia]. }
    apply throws_only_for_each with (Inv := fun s => subgraph s = sub);
      [| | exact Hsub1].
    + intros i s Hi Hs. apply (try_absent_throws sub); auto.
      intros e. apply in_graph_at. apply In_int_range in Hi. exact Hi.
    + intros i s s' Hi Hs Hrun. apply (try_absent_keeps sub s s' i); auto.
  - right. split; [reflexivity | exact Hty].
Qed.

End Call.

Lemma PatternMatchHelper_throws (fuel : nat) (st : State) :
  wf_subgraph T graph (subgraph st) ->
  throws_only (search_failure T graph) (PatternMatchHelper T graph matched fuel st).
Proof.
  revert st. induction fuel as [| fuel IH]; intros st Hwf; simpl.
  - exact I.
  - apply PatternMatchHelper_body_throws
      with (P := wf_subgraph T graph) (P' := wf_subgraph T graph).
    + intros s _. apply PatternMatchHelper_grown.
    + exact IH.
    + intros sub j Hsub Hc. apply (candidate_wf T graph matched matched_size); assumption.
    + intros sub [_ [Hall _]]. exact Hall.
    + exact Hwf.
Qed.

Lemma expand_start_throws (fuel : nat) (idx : Z) :
  in_graph graph idx ->
  throws_only (search_failure T graph) (expand_start T graph matched fuel idx).
Proof.
  intros Hidx. unfold expand_start.
  destruct (vector_at matched idx) as [m | e |] eqn:Hat; simpl; auto.
  2:{ apply (in_graph_at idx e Hidx Hat). }
  destruct m; simpl; [exact I |].
  destruct (PatternRule T graph [] idx) eqn:Hrule; [| exact I].
  assert (Hwf : wf_subgraph T graph [idx]).
  { apply (started_wf T graph matched matched_size). split; assumption. }
  apply throws_only_bind.
  - apply PatternMatchHelper_throws. exact Hwf.
  - intros s1 Hs1.
    pose proof (post_Ok True _ _ s1
                  (PatternMatchHelper_grown T graph matched fuel
                     (push_back idx (mkState [] [] []))) Hs1) as [Hs _].
    simpl in Hs. rewrite (pop_back_snoc s1 [] idx Hs). exact I.
Qed.

(** The best subgraph of an expansion holds node indices only. *)
Lemma expand_start_best_in_graph (fuel : nat) (idx : Z) (st : State) :
  expand_start T graph matched fuel idx = Ok st ->
  Forall (in_graph graph) (best_subgraph st).
Proof.
  intros Hexp.
  pose proof (post_Ok True _ _ st (expand_start_partial T graph matched fuel idx) Hexp)
    as [_ [Hvis [Hbest Hstart]]].
  destruct (best_subgraph st) as [| b tl] eqn:Eb; [constructor |].
  assert (Hne : fold_left (choose T graph) (visited st) [] <> [])
    by (rewrite <- Hbest; discriminate).
  destruct (fold_choose_In T graph (visited st) Hne) as [Hin _].
  rewrite <- Hbest in Hin.
  assert (Hst : started T graph matched idx).
  { apply Hstart. intros E. rewrite E in Hin. contradiction. }
  rewrite Forall_forall in Hvis.
  destruct (extends_wf T graph matched matched_size [idx] (b :: tl)
              (started_wf T graph matched matched_size idx Hst) (Hvis _ Hin))
    as [_ [Hall _]].
  exact Hall.
Qed.

End Throws.

(** * The search as a whole: exceptions, termination, edge cases *)

Lemma vector_at_repeat (n : nat) (i : Z) :
  0 <= i < Z.of_nat n -> vector_at (repeat false n) i = Ok false.
Proof.
  intros Hi. apply vector_at_Ok. split; [lia |].
  apply nth_error_repeat. lia.
Qed.

Section Search.

Context {Graph : Type} `{GraphOps Graph}.
Variable T : Transform Graph.
Variable graph : Graph.

Lemma PatternMatch_iter_length (fuel : nat) (k : Z)
    (acc acc' : list bool * list (list Z)) :
  length (fst acc) = size graph ->
  PatternMatch_iter T graph fuel k acc = Ok acc' ->
  length (fst acc') = size graph.
Proof.
  intros Hlen Hiter.
  destruct (PatternMatch_iter_cases T graph fuel k acc acc' Hiter)
    as [st [Hexp [_ [[_ Hsame] | [_ [_ [_ [Hmark _]]]]]]]].
  - subst acc'. exact Hlen.
  - destruct (mark_matched_spec (best_subgraph st) (fst acc))
      as [m' [Hm' [Hlen' _]]].
    { rewrite Hlen.
      apply (expand_start_best_in_graph T graph (fst acc) Hlen fuel k st Hexp). }
    rewrite Hmark in Hm'. inversion Hm'; subst m'. congruence.
Qed.

Lemma PatternMatch_iter_throws (fuel : nat) (k : Z)
    (acc : list bool * list (list Z)) :
  length (fst acc) = size graph -> in_graph graph k ->
  throws_only (search_failure T graph) (PatternMatch_iter T graph fuel k acc).
Proof.
  intros Hlen Hk. unfold PatternMatch_iter.
  apply throws_only_bind.
  - apply expand_start_throws; assumption.
  - intros st Hexp.
    destruct (0 <? length (best_subgraph st))%nat; [| exact I].
    destruct (mark_matched_spec (best_subgraph st) (fst acc))
      as [m' [Hm' _]].
    { rewrite Hlen.
      apply (expand_start_best_in_graph T graph (fst acc) Hlen fuel k st Hexp). }
    cbv zeta. rewrite Hm'. exact I.
Qed.

Lemma PatternMatch_fuel_throws (fuel : nat) :
  throws_only (search_failure T graph) (PatternMatch_fuel T graph fuel).
Proof.
  unfold PatternMatch_fuel, PatternMatch_scan.
  apply throws_only_bind; [| intros acc _; exact I].
  apply throws_only_for_each with (Inv := fun acc => length (fst acc) = size graph).
  - intros k acc Hk Hacc. apply PatternMatch_iter_throws; [exact Hacc |].
    apply In_int_range in Hk. exact Hk.
  - intros k acc acc' _ Hacc Hiter.
    apply (PatternMatch_iter_length fuel k acc acc' Hacc Hiter).
  - simpl. apply repeat_length.
Qed.

Lemma PatternMatch_throws_only_aux (e : failure) :
  PatternMatch T graph = Throw e -> search_failure T graph e.
Proof.
  intros Hpm.
  pose proof (PatternMatch_fuel_throws (S (size graph))) as Hthrows.
  unfold PatternMatch in Hpm. rewrite Hpm in Hthrows. exact Hthrows.
Qed.

(** X2. [PatternMatch] throws in two cases only: [std::out_of_range]
    from [matched.at(j)] under [CONNECTED_SUBGRAPH], when some node has a
    neighbour key that is no node index, and [CAFFE_NOT_IMPLEMENTED] under
    an unknown strategy.  In particular no [CAFFE_ENFORCE] fails and no
    vector is accessed out of its bounds without a check. *)
Theorem PatternMatch_throws_only (e : failure) :
  PatternMatch T graph = Throw e ->
  (e = out_of_range
   /\ pattern_match_type_ T = CONNECTED_SUBGRAPH /\ dangling graph)
  \/ (e = not_implemented /\ pattern_match_type_ T = OTHER_MATCH_TYPE).
Proof.
  apply PatternMatch_throws_only_aux.
Qed.

(** X1. The search terminates: the recursion of [PatternMatchHelper] is
    at most [graph.size()] calls deep, so [PatternMatch] gives the same
    result with any larger bound on the depth. *)
Theorem PatternMatch_terminates :
  PatternMatch T graph <> OutOfFuel
  /\ forall fuel, (size graph <= fuel)%nat ->
                  PatternMatch_fuel T graph fuel = PatternMatch T graph.
Proof.
  split.
  - destruct (PatternMatch_fuel_enough T graph (S (size graph))) as [Hne _]; [lia |].
    exact Hne.
  - intros fuel Hfuel. apply (PatternMatch_fuel_enough T graph fuel Hfuel).
Qed.

(** X3. [PatternMatch] returns a list of matches, without throwing, under
    [SORTED_WRT_EXECUTION_ORDER] and under [GENERAL] for every graph, and
    under [CONNECTED_SUBGRAPH] for every graph whose neighbour keys are
    all node indices. *)
Theorem PatternMatch_returns :
  pattern_match_type_ T = SORTED_WRT_EXECUTION_ORDER
  \/ pattern_match_type_ T = GENERAL
  \/ (pattern_match_type_ T = CONNECTED_SUBGRAPH /\ closed graph) ->
  exists matches, PatternMatch T graph = Ok matches.
Proof.
  intros Hty. destruct (PatternMatch T graph) as [matches | e |] eqn:Hpm.
  - exists matches. reflexivity.
  - exfalso.
    destruct (PatternMatch_throws_only_aux e Hpm)
      as [[_ [Hc [x [j [Hx [Hadj Hj]]]]]] | [_ Ho]].
    + destruct Hty as [Hs | [Hg | [_ Hclosed]]]; try congruence.
      apply Hj. apply (Hclosed x j Hx Hadj).
    + destruct Hty as [Hs | [Hg | [Hc _]]]; congruence.
  - exfalso.
    destruct (PatternMatch_fuel_enough T graph (S (size graph))) as [Hne _]; [lia |].
    exact (Hne Hpm).
Qed.

Lemma vector_at_in_range {A : Type} (v : list A) (i : Z) :
  0 <= i < Z.of_nat (length v) -> exists a, vector_at v i = Ok a.
Proof.
  intros Hi. destruct (nth_error v (Z.to_nat i)) as [a |] eqn:E.
  - exists a. apply vector_at_Ok. split; [lia | exact E].
  - apply nth_error_None in E. lia.
Qed.

(** An iteration over a start index that is marked or rejected changes
    nothing. *)
Lemma PatternMatch_iter_skips (fuel : nat) (k : Z)
    (acc : list bool * list (list Z)) :
  vector_at (fst acc) k = Ok true
  \/ (vector_at (fst acc) k = Ok false /\ PatternRule T graph [] k = false) ->
  PatternMatch_iter T graph fuel k acc = Ok acc.
Proof.
  intros Hskip. unfold PatternMatch_iter, expand_start.
  destruct Hskip as [Hat | [Hat Hrule]]; rewrite Hat; simpl.
  - reflexivity.
  - rewrite Hrule. reflexivity.
Qed.

Lemma PatternMatch_scan_rejected (fuel n : nat) :
  (n <= size graph)%nat ->
  (forall idx, 0 <= idx < Z.of_nat n -> PatternRule T graph [] idx = false) ->
  PatternMatch_scan T graph fuel (Z.of_nat n) = Ok (repeat false (size graph), []).
Proof.
  induction n as [| n IH]; intros Hn Hrej.
  - reflexivity.
  - rewrite Nat2Z.inj_succ. unfold Z.succ.
    rewrite PatternMatch_scan_succ by lia.
    rewrite IH; [| lia | intros idx Hidx; apply Hrej; lia]. simpl.
    apply PatternMatch_iter_skips. right. simpl. split.
    + apply vector_at_repeat. lia.
    + apply Hrej. lia.
Qed.

(** X4. When [PatternRule] rejects every node index against the empty
    subgraph, [PatternMatch] returns no match, under every strategy, also
    an unknown one, and whatever the neighbour maps hold; so it does on a
    graph without nodes. *)
Theorem PatternMatch_nothing_accepted :
  (forall idx, in_graph graph idx -> PatternRule T graph [] idx = false) ->
  PatternMatch T graph = Ok [].
Proof.
  intros Hrej. unfold PatternMatch, PatternMatch_fuel.
  rewrite (PatternMatch_scan_rejected (S (size graph)) (size graph) (le_n _)).
  - reflexivity.
  - intros idx Hidx. apply Hrej. exact Hidx.
Qed.

Lemma PatternMatch_scan_unknown (fuel n : nat) :
  pattern_match_type_ T = OTHER_MATCH_TYPE ->
  (n <= size graph)%nat ->
  (PatternMatch_scan T graph (S fuel) (Z.of_nat n)
   = Ok (repeat false (size graph), [])
   /\ forall idx, 0 <= idx < Z.of_nat n -> PatternRule T graph [] idx = false)
  \/ PatternMatch_scan T graph (S fuel) (Z.of_nat n) = Throw not_implemented.
Proof.
  intros Hty. induction n as [| n IH]; intros Hn.
  - left. split; [reflexivity | intros idx Hidx; lia].
  - rewrite Nat2Z.inj_succ. unfold Z.succ.
    rewrite PatternMatch_scan_succ by lia.
    destruct IH as [[Hscan Hrej] | Hthrow]; [lia | |].
    + rewrite Hscan. simpl.
      destruct (PatternRule T graph [] (Z.of_nat n)) eqn:Hrule.
      * right. unfold PatternMatch_iter, expand_start. simpl.
        rewrite vector_at_repeat by lia. simpl. rewrite Hrule.
        unfold PatternMatchHelper_body. rewrite Hty. reflexivity.
      * left. split.
        -- apply PatternMatch_iter_skips. right. simpl. split; [| exact Hrule].
           apply vector_at_repeat. lia.
        -- intros idx Hidx.
           destruct (Z.eq_dec idx (Z.of_nat n)) as [E | E]; [subst; exact Hrule |].
           apply Hrej. lia.
    + right. rewrite Hthrow. reflexivity.
Qed.

(** X5. Under a strategy other than the three known ones, [PatternMatch]
    throws [CAFFE_NOT_IMPLEMENTED] as soon as [PatternRule] accepts some
    node index against the empty subgraph. *)
Theorem PatternMatch_unknown_strategy (idx : Z) :
  pattern_match_type_ T = OTHER_MATCH_TYPE ->
  in_graph graph idx -> PatternRule T graph [] idx = true ->
  PatternMatch T graph = Throw not_implemented.
Proof.
  intros Hty Hidx Hrule. unfold PatternMatch, PatternMatch_fuel.
  destruct (PatternMatch_scan_unknown (size graph) (size graph) Hty (le_n _))
    as [[_ Hrej] | Hthrow].
  - rewrite (Hrej idx Hidx) in Hrule. discriminate.
  - rewrite Hthrow. reflexivity.
Qed.

(** The matches of a later point of the scan extend those of an earlier
    one, by matches that begin at the start indices in between. *)
Lemma PatternMatch_scan_extends (fuel : nat) (k : Z) (d : nat)
    (acc acc' : list bool * list (list Z)) :
  0 <= k ->
  PatternMatch_scan T graph fuel k = Ok acc ->
  PatternMatch_scan T graph fuel (k + Z.of_nat d) = Ok acc' ->
  exists rest, snd acc' = snd acc ++ rest /\ Forall (fun m => k <= hd 0 m) rest.
Proof.
  intros Hk Hacc. revert acc'. induction d as [| d IH]; intros acc' Hacc'.
  - replace (k + Z.of_nat 0) with k in Hacc' by lia.
    rewrite Hacc in Hacc'. inversion Hacc'; subst.
    exists []. rewrite app_nil_r. split; [reflexivity | constructor].
  - replace (k + Z.of_nat (S d)) with ((k + Z.of_nat d) + 1) in Hacc' by lia.
    rewrite PatternMatch_scan_succ in Hacc' by lia.
    apply bind_Ok in Hacc'. destruct Hacc' as [acc0 [Hacc0 Hiter]].
    destruct (IH acc0 Hacc0) as [rest [Hrest Hheads]].
    destruct (PatternMatch_iter_cases T graph fuel _ acc0 acc' Hiter)
      as [st [_ [_ [[_ Hsame] | [_ [_ [[tl Htl] [_ Happ]]]]]]]].
    + subst acc'. exists rest. split; assumption.
    + exists (rest ++ [best_subgraph st]). split.
      * rewrite Happ, Hrest, app_assoc. reflexivity.
      * apply Forall_app. split; [exact Hheads |].
        constructor; [| constructor]. rewrite Htl. simpl. lia.
Qed.

Lemma PatternMatch_scan_upto (matches : list (list Z)) (k : Z) :
  PatternMatch T graph = Ok matches ->
  0 <= k <= Z.of_nat (size graph) ->
  exists matched found rest,
    PatternMatch_scan T graph (S (size graph)) k = Ok (matched, found)
    /\ scan_inv T graph k (matched, found)
    /\ matches = found ++ rest
    /\ Forall (fun m => k <= hd 0 m) rest.
Proof.
  intros Hpm Hk.
  destruct (PatternMatch_scan_inv T graph matches Hpm) as [matched' [Hscan _]].
  assert (Hsize : Z.of_nat (size graph) = k + Z.of_nat (Z.to_nat (Z.of_nat (size graph) - k)))
    by lia.
  rewrite Hsize in Hscan.
  destruct (PatternMatch_scan_down T graph _ k _ _ (proj1 Hk) Hscan)
    as [[matched found] Hacc].
  destruct (PatternMatch_scan_extends _ k _ _ _ (proj1 Hk) Hacc Hscan)
    as [rest [Hrest Hheads]].
  exists matched, found, rest. split; [exact Hacc |]. split; [| split; assumption].
  pose proof (PatternMatch_scan_post T graph (S (size graph)) (Z.to_nat k)
                (Nat.le_succ_diag_r _)) as Hp.
  rewrite Z2Nat.id in Hp by lia.
  apply (post_Ok False _ _ _ Hp Hacc).
Qed.

(** X9. What [PatternMatch] has recorded when it reaches start index [k]
    stays: the matches found by then are the returned matches that begin
    below [k], in the same order, and the later ones begin at [k] or
    above. *)
Theorem PatternMatch_commits (matches : list (list Z)) (k : Z) :
  PatternMatch T graph = Ok matches ->
  0 <= k <= Z.of_nat (size graph) ->
  exists matched found rest,
    PatternMatch_scan T graph (S (size graph)) k = Ok (matched, found)
    /\ matches = found ++ rest
    /\ Forall (fun m => hd 0 m < k) found
    /\ Forall (fun m => k <= hd 0 m) rest.
Proof.
  intros Hpm Hk.
  destruct (PatternMatch_scan_upto matches k Hpm Hk)
    as [matched [found [rest [Hacc [Hinv [Hrest Hheads]]]]]].
  exists matched, found, rest. repeat split; auto.
  destruct Hinv as [_ [_ [_ [Hrec _]]]]. simpl in Hrec.
  eapply Forall_impl; [| exact Hrec].
  intros m Hm. destruct (recorded_hd T graph k m Hm) as [tl [_ Hlt]]. lia.
Qed.

(** The match recorded for a start index is at least as large as every
    valid subgraph that can be reached from it. *)
Lemma PatternMatch_scan_maximal (matches : list (list Z)) (k : Z)
    (matched : list bool) (found : list (list Z)) (s : list Z) :
  PatternMatch T graph = Ok matches ->
  0 <= k < Z.of_nat (size graph) ->
  PatternMatch_scan T graph (S (size graph)) k = Ok (matched, found) ->
  started T graph matched k ->
  extends T graph matched [k] s ->
  ValidatorRule T graph s = true ->
  exists tl, In (k :: tl) matches /\ (length s <= length (k :: tl))%nat.
Proof.
  intros Hpm Hk Hacc Hst Hext Hval.
  destruct (PatternMatch_scan_upto matches (k + 1) Hpm)
    as [matched' [found' [rest [Hacc' [_ [Hrest _]]]]]]; [lia |].
  pose proof Hacc' as Hsucc.
  rewrite PatternMatch_scan_succ in Hsucc by lia.
  rewrite Hacc in Hsucc. simpl in Hsucc.
  destruct (PatternMatch_iter_cases T graph _ k _ _ Hsucc)
    as [st [Hexp [[_ [_ [Hbest _]]] Hcases]]].
  simpl in Hexp, Hbest.
  assert (Hin : In s (visited st)).
  { apply (expand_start_visits T graph matched _ k st s Hexp). split; assumption. }
  destruct (extends_hd T graph matched k s Hext) as [stl Hs].
  destruct (fold_choose_first_max T graph (visited st) [])
    as [[_ Hall] | [l1 [l2 [Hvis [_ [_ [H1 H2]]]]]]].
  - specialize (Hall s Hin Hval). subst s. simpl in Hall. lia.
  - rewrite <- Hbest in Hvis, H1, H2.
    assert (Hle : (length s <= length (best_subgraph st))%nat).
    { rewrite Hvis in Hin. apply in_app_or in Hin.
      destruct Hin as [Hin | [Hin | Hin]].
      - specialize (H1 s Hin Hval). lia.
      - subst s. lia.
      - apply (H2 s Hin Hval). }
    destruct Hcases as [[Hnil _] | [_ [_ [[tl Htl] [_ Happ]]]]].
    + rewrite Hnil in Hle. subst s. simpl in Hle. lia.
    + exists tl. rewrite <- Htl. split; [| exact Hle].
      rewrite Hrest. apply in_or_app. left. simpl in Happ. rewrite Happ.
      apply in_or_app. right. left. reflexivity.
Qed.

(** X6. The search misses nothing at a start index: if, under the
    registry with which [PatternMatch] reaches start index [k], [k] is
    unmatched and accepted and a valid subgraph [s] can be reached from
    [[k]] by the appends that the strategy allows, then a match beginning
    with [k] is returned, and it has at least as many nodes as [s]. *)
Theorem PatternMatch_misses_nothing (matches : list (list Z)) (k : Z)
    (matched : list bool) (found : list (list Z)) (s : list Z) :
  PatternMatch T graph = Ok matches ->
  0 <= k < Z.of_nat (size graph) ->
  PatternMatch_scan T graph (S (size graph)) k = Ok (matched, found) ->
  started T graph matched k ->
  extends T graph matched [k] s ->
  ValidatorRule T graph s = true ->
  exists tl, In (k :: tl) matches /\ (length s <= length (k :: tl))%nat.
Proof.
  apply PatternMatch_scan_maximal.
Qed.

(** X7. Every node index that [PatternRule] accepts against the empty
    subgraph and that is valid as a subgraph of its own ends up in some
    returned match. *)
Theorem PatternMatch_covers (matches : list (list Z)) (k : Z) :
  PatternMatch T graph = Ok matches ->
  in_graph graph k ->
  PatternRule T graph [] k = true ->
  ValidatorRule T graph [k] = true ->
  In k (concat matches).
Proof.
  intros Hpm Hk Hrule Hval.
  destruct (PatternMatch_scan_upto matches k Hpm)
    as [matched [found [rest [Hacc [Hinv [Hrest _]]]]]].
  { unfold in_graph in Hk. lia. }
  destruct Hinv as [Hlen [Hreg _]]. simpl in Hlen, Hreg.
  destruct (vector_at_in_range matched k) as [b Hat].
  { rewrite Hlen. exact Hk. }
  destruct b.
  - rewrite Hrest, concat_app. apply in_or_app. left. apply Hreg. exact Hat.
  - destruct (PatternMatch_scan_maximal matches k matched found [k] Hpm Hk Hacc)
      as [tl [Hin _]].
    + split; assumption.
    + apply extends_refl.
    + exact Hval.
    + apply in_concat. exists (k :: tl). split; [exact Hin | left; reflexivity].
Qed.

Lemma length_concat_nonempty (ms : list (list Z)) :
  Forall (fun m => m <> []) ms -> (length ms <= length (concat ms))%nat.
Proof.
  induction 1 as [| m ms Hm _ IH]; simpl; [lia |].
  rewrite length_app. destruct m; [contradiction Hm; reflexivity |]. simpl. lia.
Qed.

(** X8. The returned matches hold at most [graph.size()] node indices
    altogether, each of them a node index of the graph; so there are at
    most [graph.size()] matches, and none is longer than that. *)
Theorem PatternMatch_size_bound (matches : list (list Z)) :
  PatternMatch T graph = Ok matches ->
  Forall (in_graph graph) (concat matches)
  /\ (length (concat matches) <= size graph)%nat
  /\ (length matches <= size graph)%nat.
Proof.
  intros Hpm.
  destruct (PatternMatch_scan_inv T graph matches Hpm)
    as [matched [_ [_ [_ [Hnd [Hrec _]]]]]].
  simpl in Hnd, Hrec.
  assert (Hall : Forall (in_graph graph) (concat matches)).
  { apply Forall_forall. intros x Hx. apply in_concat in Hx.
    destruct Hx as [m [Hm Hxm]]. rewrite Forall_forall in Hrec.
    destruct (recorded_steps T graph _ m (Hrec m Hm)) as [m0 [_ [[_ [Hin _]] _]]].
    rewrite Forall_forall in Hin. apply Hin. exact Hxm. }
  assert (Hlen : (length (concat matches) <= size graph)%nat).
  { replace (size graph) with (length (int_range 0 (Z.of_nat (size graph)))).
    - apply NoDup_incl_length; [exact Hnd |].
      intros x Hx. apply In_int_range.
      rewrite Forall_forall in Hall. apply Hall. exact Hx.
    - unfold int_range. rewrite length_map, length_seq. lia. }
  split; [exact Hall |]. split; [exact Hlen |].
  assert (Hne : Forall (fun m => m <> []) matches).
  { eapply Forall_impl; [| exact Hrec].
    intros m Hm. destruct (recorded_hd T graph _ m Hm) as [tl [Hm' _]].
    rewrite Hm'. discriminate. }
  pose proof (length_concat_nonempty matches Hne). lia.
Qed.

(** X10. A call of [PatternMatchHelper] that returns never shrinks the
    best subgraph: it leaves it as it was, or replaces it by a strictly
    larger valid subgraph that extends the working subgraph of the
    call. *)
Theorem PatternMatchHelper_best_grows (matched : list bool) (fuel : nat)
    (st st' : State) :
  PatternMatchHelper T graph matched fuel st = Ok st' ->
  best_subgraph st' = best_subgraph st
  \/ (ValidatorRule T graph (best_subgraph st') = true
      /\ (length (best_subgraph st) < length (best_subgraph st'))%nat
      /\ extends T graph matched (subgraph st) (best_subgraph st')).
Proof.
  intros Hrun.
  pose proof (post_Ok True _ _ st' (PatternMatchHelper_grown T graph matched fuel st) Hrun)
    as [_ [vs [_ [Hext Hbest]]]].
  rewrite Hbest.
  destruct (fold_choose_first_max T graph vs (best_subgraph st))
    as [[Hsame _] | [l1 [l2 [Hvs [Hval [Hlt _]]]]]].
  - left. exact Hsame.
  - right. split; [exact Hval |]. split; [exact Hlt |].
    rewrite Forall_forall in Hext. apply Hext.
    rewrite Hvs at 2. apply in_or_app. right. left. reflexivity.
Qed.

End Search.

(** * The apply phase as a whole *)

Lemma app_eq_length {A : Type} (l1 l2 r1 r2 : list A) :
  l1 ++ r1 = l2 ++ r2 -> length l1 = length l2 -> l1 = l2 /\ r1 = r2.
Proof.
  revert l2. induction l1 as [| a l1 IH]; intros [| b l2] Heq Hlen;
    simpl in *; try discriminate.
  - split; [reflexivity | exact Heq].
  - inversion Heq; subst. destruct (IH l2) as [E1 E2]; auto.
    subst. split; reflexivity.
Qed.

Section ApplyTrace.

Context {Graph : Type} `{GraphOps Graph}.
Variable T : Transform Graph.

(** The calls made before the loop starts are kept in front of the
    trace, and change nothing else. *)
Lemma ReplacePattern_from_calls (matches : list (list Z)) (g : Graph)
    (c c' : list (list Z)) :
  ReplacePattern_from T matches g (c ++ c')
  = mkOutcome (graph_after (ReplacePattern_from T matches g c'))
      (thrown (ReplacePattern_from T matches g c'))
      (c ++ invoked (ReplacePattern_from T matches g c')).
Proof.
  revert g c'. induction matches as [| m matches IH]; intros g c'; simpl.
  - reflexivity.
  - destruct (is_match_active g m); [| apply IH].
    destruct (fst (ReplaceRule T m g)).
    + rewrite <- app_assoc. apply IH.
    + simpl. rewrite app_assoc. reflexivity.
Qed.

Lemma ReplacePattern_from_thrown (matches : list (list Z)) (g : Graph)
    (c : list (list Z)) (e : failure) :
  thrown (ReplacePattern_from T matches g c) = Some e ->
  e = replace_failed
  /\ (length c < length (invoked (ReplacePattern_from T matches g c)))%nat.
Proof.
  revert g c. induction matches as [| m matches IH]; intros g c; simpl.
  - discriminate.
  - destruct (is_match_active g m); [| apply IH].
    destruct (fst (ReplaceRule T m g)).
    + intros Hthrown. destruct (IH _ _ Hthrown) as [He Hlen].
      split; [exact He |]. rewrite length_app in Hlen. simpl in Hlen. lia.
    + simpl. intros Heq. inversion Heq. split; [reflexivity |].
      rewrite length_app. simpl. lia.
Qed.

Lemma ReplacePattern_from_longer (matches : list (list Z)) (g : Graph)
    (c : list (list Z)) :
  exists ext, invoked (ReplacePattern_from T matches g c) = c ++ ext.
Proof.
  exists (invoked (ReplacePattern_from T matches g [])).
  rewrite <- (app_nil_r c) at 1. rewrite ReplacePattern_from_calls. reflexivity.
Qed.

(** Every call of the trace: its match was active, and it returned true
    unless it is the last call of a run that threw. *)
Lemma ReplacePattern_from_trace (g0 : Graph) (matches : list (list Z)) :
  forall (g : Graph) (c calls : list (list Z)) (m : list Z) (rest : list (list Z)),
    g = rewritten T g0 c ->
    invoked (ReplacePattern_from T matches g c) = calls ++ m :: rest ->
    (length c <= length calls)%nat ->
    is_match_active (rewritten T g0 calls) m = true
    /\ fst (ReplaceRule T m (rewritten T g0 calls))
       = match rest, thrown (ReplacePattern_from T matches g c) with
         | [], Some _ => false
         | _, _ => true
         end.
Proof.
  induction matches as [| m0 matches IH]; intros g c calls m rest Hg Hinv Hlen.
  - simpl in Hinv. apply (f_equal (@length (list Z))) in Hinv.
    rewrite length_app in Hinv. simpl in Hinv. lia.
  - simpl in Hinv |- *.
    destruct (is_match_active g m0) eqn:Hact; [| apply (IH g c); assumption].
    assert (Hstep : snd (ReplaceRule T m0 g) = rewritten T g0 (c ++ [m0])).
    { unfold rewritten. rewrite fold_left_app. simpl. rewrite Hg. reflexivity. }
    destruct (Nat.eq_dec (length c) (length calls)) as [Heq | Hneq].
    + assert (Hhead : c = calls /\ exists ext,
                 [m0] ++ ext = m :: rest
                 /\ invoked (if fst (ReplaceRule T m0 g)
                             then ReplacePattern_from T matches
                                    (snd (ReplaceRule T m0 g)) (c ++ [m0])
                             else mkOutcome (snd (ReplaceRule T m0 g))
                                    (Some replace_failed) (c ++ [m0]))
                    = c ++ [m0] ++ ext).
      { destruct (fst (ReplaceRule T m0 g)); cbv iota in Hinv |- *.
        - destruct (ReplacePattern_from_longer matches (snd (ReplaceRule T m0 g))
                      (c ++ [m0])) as [ext Hext].
          rewrite Hext in Hinv. rewrite <- app_assoc in Hinv.
          destruct (app_eq_length _ _ _ _ Hinv Heq) as [E1 E2].
          split; [exact E1 |]. exists ext. split; [exact E2 |].
          rewrite Hext, <- app_assoc. reflexivity.
        - simpl in Hinv. rewrite <- (app_nil_r [m0]) in Hinv.
          destruct (app_eq_length _ _ _ _ Hinv Heq) as [E1 E2].
          split; [exact E1 |]. exists []. split; [exact E2 |].
          simpl. reflexivity. }
      destruct Hhead as [Ec [ext [Hext Hinvoked]]].
      simpl in Hext. inversion Hext; subst m rest calls.
      rewrite <- Hg. split; [exact Hact |].
      destruct (fst (ReplaceRule T m0 g)) eqn:Hfst.
      * destruct ext as [| e1 ext]; [| reflexivity].
        destruct (thrown (ReplacePattern_from T matches (snd (ReplaceRule T m0 g))
                            (c ++ [m0]))) eqn:Hthrown; [| reflexivity].
        destruct (ReplacePattern_from_thrown _ _ _ _ Hthrown) as [_ Hlonger].
        rewrite Hinvoked in Hlonger. rewrite !length_app in Hlonger.
        simpl in Hlonger. lia.
      * simpl in Hinvoked.
        assert (Hext' : ext = []).
        { apply (f_equal (@length (list Z))) in Hinvoked.
          rewrite !length_app in Hinvoked. simpl in Hinvoked.
          destruct ext; [reflexivity | simpl in Hinvoked; lia]. }
        subst ext. reflexivity.
    + destruct (fst (ReplaceRule T m0 g)) eqn:Hfst.
      * apply (IH (snd (ReplaceRule T m0 g)) (c ++ [m0])); auto.
        rewrite length_app. simpl. lia.
      * simpl in Hinv. apply (f_equal (@length (list Z))) in Hinv.
        rewrite !length_app in Hinv. simpl in Hinv. lia.
Qed.

(** X13. The trace of [ReplacePattern]: [ReplaceRule] is only ever
    called on a match all of whose members are active in the graph that
    the earlier calls have left; every call returns true, except the last
    one of a run that throws; and the only exception is "Replace
    failed!", after at least one call. *)
Theorem ReplacePattern_trace (matches : list (list Z)) (g : Graph) :
  (forall e, thrown (ReplacePattern T matches g) = Some e ->
             e = replace_failed /\ invoked (ReplacePattern T matches g) <> [])
  /\ forall calls m rest,
       invoked (ReplacePattern T matches g) = calls ++ m :: rest ->
       (forall idx, In idx m ->
                    is_node_active (rewritten T g calls) idx = true)
       /\ fst (ReplaceRule T m (rewritten T g calls))
          = match rest, thrown (ReplacePattern T matches g) with
            | [], Some _ => false
            | _, _ => true
            end.
Proof.
  unfold ReplacePattern. split.
  - intros e Hthrown.
    destruct (ReplacePattern_from_thrown matches g [] e Hthrown) as [He Hlen].
    split; [exact He |]. intros Hnil. rewrite Hnil in Hlen. simpl in Hlen. lia.
  - intros calls m rest Hinv.
    destruct (ReplacePattern_from_trace g matches g [] calls m rest eq_refl Hinv)
      as [Hact Hfst]; [simpl; lia |].
    split; [| exact Hfst].
    apply is_match_active_true. exact Hact.
Qed.

(** X14. Applying a list of matches in two parts: [ReplacePattern] on
    [l1 ++ l2] is [ReplacePattern] on [l1] and, unless that throws, on
    [l2] from the graph that it leaves, the calls of the second after
    those of the first. *)
Theorem ReplacePattern_app (l1 l2 : list (list Z)) (g : Graph) :
  ReplacePattern T (l1 ++ l2) g
  = match thrown (ReplacePattern T l1 g) with
    | Some _ => ReplacePattern T l1 g
    | None =>
        mkOutcome
          (graph_after (ReplacePattern T l2 (graph_after (ReplacePattern T l1 g))))
          (thrown (ReplacePattern T l2 (graph_after (ReplacePattern T l1 g))))
          (invoked (ReplacePattern T l1 g)
           ++ invoked (ReplacePattern T l2 (graph_after (ReplacePattern T l1 g))))
    end.
Proof.
  unfold ReplacePattern. rewrite ReplacePattern_from_app.
  destruct (thrown (ReplacePattern_from T l1 g [])); [reflexivity |].
  rewrite <- (app_nil_r (invoked (ReplacePattern_from T l1 g []))) at 1.
  apply ReplacePattern_from_calls.
Qed.

Lemma rewritten_inactive (g : Graph) (calls : list (list Z)) (m' : list Z) (x : Z) :
  (forall m g' idx, In idx m ->
                    is_node_active (snd (ReplaceRule T m g')) idx = false) ->
  (forall m g' idx, is_node_active g' idx = false ->
                    is_node_active (snd (ReplaceRule T m g')) idx = false) ->
  In m' calls -> In x m' -> is_node_active (rewritten T g calls) x = false.
Proof.
  intros Hdeact Hstay. induction calls as [| m0 calls IH] using rev_ind;
    intros Hm' Hx; [contradiction |].
  unfold rewritten. rewrite fold_left_app. simpl.
  apply in_app_or in Hm'. destruct Hm' as [Hm' | [Hm' | []]].
  - apply Hstay. apply IH; assumption.
  - subst m0. apply Hdeact. exact Hx.
Qed.

(** X11. No node is replaced twice: when [ReplaceRule] deactivates the
    members of the match it is given and activates no node, a match on
    which [ReplacePattern] calls it shares no node with any match of an
    earlier call. *)
Theorem ReplacePattern_rewrites_once (matches : list (list Z)) (g : Graph)
    (calls : list (list Z)) (m : list Z) (rest : list (list Z)) :
  (forall m g' idx, In idx m ->
                    is_node_active (snd (ReplaceRule T m g')) idx = false) ->
  (forall m g' idx, is_node_active g' idx = false ->
                    is_node_active (snd (ReplaceRule T m g')) idx = false) ->
  invoked (ReplacePattern T matches g) = calls ++ m :: rest ->
  forall m' x, In m' calls -> In x m' -> ~ In x m.
Proof.
  intros Hdeact Hstay Hinv m' x Hm' Hx Hxm. unfold ReplacePattern in Hinv.
  destruct (ReplacePattern_from_trace g matches g [] calls m rest eq_refl Hinv)
    as [Hact _]; [simpl; lia |].
  pose proof (proj1 (is_match_active_true _ _) Hact x Hxm) as Hactive.
  rewrite (rewritten_inactive g calls m' x Hdeact Hstay Hm' Hx) in Hactive.
  discriminate.
Qed.

Lemma ReplacePattern_from_all (matches : list (list Z)) :
  (forall m g idx, ~ In idx m ->
                   is_node_active (snd (ReplaceRule T m g)) idx = is_node_active g idx) ->
  (forall m g, fst (ReplaceRule T m g) = true) ->
  NoDup (concat matches) ->
  forall g c,
    (forall idx, In idx (concat matches) -> is_node_active g idx = true) ->
    ReplacePattern_from T matches g c
    = mkOutcome (rewritten T g matches) None (c ++ matches).
Proof.
  intros Hkeep Hok. induction matches as [| m matches IH]; intros Hnd g c Hactive.
  - simpl. rewrite app_nil_r. reflexivity.
  - simpl in Hnd, Hactive |- *.
    replace (is_match_active g m) with true.
    2:{ symmetry. apply is_match_active_true. intros idx Hidx.
        apply Hactive. apply in_or_app. left; exact Hidx. }
    rewrite Hok. rewrite IH.
    + rewrite <- app_assoc. reflexivity.
    + apply NoDup_app_remove_l in Hnd. exact Hnd.
    + intros idx Hidx. rewrite Hkeep.
      * apply Hactive. apply in_or_app. right; exact Hidx.
      * intros Hm. apply (NoDup_app_disjoint _ _ idx Hnd Hm Hidx).
Qed.

(** X12. Nothing is skipped when nothing goes stale: if the matches are
    pairwise disjoint and without repetition, all their members are
    active at first, and [ReplaceRule] always returns true and leaves the
    activity of the nodes outside its match as it is, then
    [ReplacePattern] calls [ReplaceRule] on every match, in order, and
    does not throw. *)
Theorem ReplacePattern_applies_all (matches : list (list Z)) (g : Graph) :
  (forall m g' idx, ~ In idx m ->
                    is_node_active (snd (ReplaceRule T m g')) idx
                    = is_node_active g' idx) ->
  (forall m g', fst (ReplaceRule T m g') = true) ->
  NoDup (concat matches) ->
  (forall idx, In idx (concat matches) -> is_node_active g idx = true) ->
  ReplacePattern T matches g = mkOutcome (rewritten T g matches) None matches.
Proof.
  intros Hkeep Hok Hnd Hactive. unfold ReplacePattern.
  apply (ReplacePattern_from_all matches Hkeep Hok Hnd g [] Hactive).
Qed.

End ApplyTrace.

(** * The driver *)

Section Pipeline.

Context {NetDef Graph : Type} `{GraphOps Graph} `{NetOps NetDef Graph}.
Variable T : Transform Graph.

(** X15. When [PatternRule] rejects every node index of the graph built
    from the net, [ApplyTo] returns the export of that very graph: no
    rule is called, nothing is rewritten. *)
Theorem ApplyTo_nothing_accepted (orig_net : NetDef) (g : Graph) :
  Graph_of_NetDef orig_net = Ok g ->
  (forall idx, in_graph g idx -> PatternRule T g [] idx = false) ->
  ApplyTo T orig_net = GetNetDef g.
Proof.
  intros Hg Hrej. unfold ApplyTo. rewrite Hg. simpl.
  unfold PatternMatch, PatternMatch_fuel.
  rewrite (PatternMatch_scan_rejected T g (S (size g)) (size g) (le_n _)).
  - reflexivity.
  - intros idx Hidx. apply Hrej. exact Hidx.
Qed.

(** X16. With a [ReplaceRule] that always returns true and leaves the
    activity of the nodes outside its match as it is, on a graph whose
    nodes are all active, [ApplyTo] applies every match that
    [PatternMatch] finds, in the order found, and exports the result. *)
Theorem ApplyTo_applies_all (orig_net : NetDef) (g : Graph)
    (matches : list (list Z)) :
  Graph_of_NetDef orig_net = Ok g ->
  PatternMatch T g = Ok matches ->
  (forall m g' idx, ~ In idx m ->
                    is_node_active (snd (ReplaceRule T m g')) idx
                    = is_node_active g' idx) ->
  (forall m g', fst (ReplaceRule T m g') = true) ->
  (forall idx, in_graph g idx -> is_node_active g idx = true) ->
  ApplyTo T orig_net = GetNetDef (rewritten T g matches).
Proof.
  intros Hg Hpm Hkeep Hok Hactive. unfold ApplyTo. rewrite Hg. simpl.
  rewrite Hpm. simpl.
  destruct (PatternMatch_scan_inv T g matches Hpm)
    as [matched [_ [_ [_ [Hnd [Hrec _]]]]]].
  simpl in Hnd, Hrec.
  unfold ReplacePattern.
  rewrite (ReplacePattern_from_all T matches Hkeep Hok Hnd g []).
  - reflexivity.
  - intros idx Hidx. apply Hactive. apply in_concat in Hidx.
    destruct Hidx as [m [Hm Hxm]]. rewrite Forall_forall in Hrec.
    destruct (recorded_steps T g _ m (Hrec m Hm)) as [m0 [_ [[_ [Hin _]] _]]].
    rewrite Forall_forall in Hin. apply Hin. exact Hxm.
Qed.

(** X17. [ApplyTo] throws what the construction of the graph throws,
    one of the two failures of the search, "Replace failed!", or what the
    export throws, and nothing else. *)
Theorem ApplyTo_throws_only (orig_net : NetDef) (e : failure) :
  ApplyTo T orig_net = Throw e ->
  Graph_of_NetDef orig_net = Throw e
  \/ exists g,
       Graph_of_NetDef orig_net = Ok g
       /\ (search_failure T g e
           \/ e = replace_failed
           \/ exists g', GetNetDef g' = Throw e).
Proof.
  unfold ApplyTo. intros Hrun.
  destruct (Graph_of_NetDef orig_net) as [g | e0 |] eqn:Hg; simpl in Hrun.
  - right. exists g. split; [reflexivity |].
    destruct (PatternMatch T g) as [matches | e1 |] eqn:Hpm; simpl in Hrun.
    + destruct (thrown (ReplacePattern T matches g)) as [e2 |] eqn:Hthrown.
      * inversion Hrun; subst e2. right. left.
        apply (ReplacePattern_from_thrown T matches g [] e Hthrown).
      * right. right. exists (graph_after (ReplacePattern T matches g)). exact Hrun.
    + inversion Hrun; subst e1. left.
      apply (PatternMatch_throws_only_aux T g e Hpm).
    + discriminate Hrun.
  - left. inversion Hrun. reflexivity.
  - discriminate Hrun.
Qed.

(** X18. When [ReplacePattern] throws on the matches found, [ApplyTo]
    throws "Replace failed!": no net is returned, whatever the earlier
    calls have done to the graph. *)
Theorem ApplyTo_replace_failed (orig_net : NetDef) (g : Graph)
    (matches : list (list Z)) :
  Graph_of_NetDef orig_net = Ok g ->
  PatternMatch T g = Ok matches ->
  thrown (ReplacePattern T matches g) <> None ->
  ApplyTo T orig_net = Throw replace_failed.
Proof.
  intros Hg Hpm Hthrown. unfold ApplyTo. rewrite Hg. simpl. rewrite Hpm. simpl.
  destruct (thrown (ReplacePattern T matches g)) as [e |] eqn:He.
  - destruct (ReplacePattern_from_thrown T matches g [] e He) as [Hrf _].
    subst e. reflexivity.
  - contradiction Hthrown. reflexivity.
Qed.

End Pipeline.

(** * Runs on the chain, continued *)

Lemma replace_nth_stays (g : list Node) (n k : nat) (nd : Node) :
  active nd = false ->
  active (nth k g absent_node) = false ->
  active (nth k (replace_nth g n nd) absent_node) = false.
Proof.
  intros Hnd. revert n k.
  induction g as [| a g IH]; intros [| n] [| k]; simpl; auto.
Qed.

Lemma replace_nth_here (g : list Node) (n : nat) (nd : Node) :
  active nd = false ->
  active (nth n (replace_nth g n nd) absent_node) = false.
Proof.
  intros Hnd. revert n.
  induction g as [| a g IH]; intros [| n]; simpl; auto.
Qed.

Lemma deactivate_stays (m : list Z) (g : list Node) (idx : Z) :
  is_node_active g idx = false -> is_node_active (deactivate m g) idx = false.
Proof.
  revert g. induction m as [| a m IH]; intros g Hg; simpl; [exact Hg |].
  apply IH. simpl. apply replace_nth_stays; [reflexivity | exact Hg].
Qed.

Lemma deactivate_members (m : list Z) (g : list Node) (idx : Z) :
  In idx m -> is_node_active (deactivate m g) idx = false.
Proof.
  revert g. induction m as [| a m IH]; intros g Hin; [contradiction |].
  destruct Hin as [E | Hin]; simpl.
  - subst a. apply deactivate_stays. simpl. apply replace_nth_here. reflexivity.
  - apply IH. exact Hin.
Qed.

Lemma chain_closed : closed chain.
Proof.
  intros x j Hx Hadj. unfold in_graph in *. simpl in Hx.
  assert (Hcases : x = 0 \/ x = 1 \/ x = 2) by lia.
  unfold adjacent in Hadj.
  destruct Hcases as [E | [E | E]]; subst x; simpl in Hadj |- *; lia.
Qed.

Lemma chain_all_active (idx : Z) :
  in_graph chain idx -> is_node_active chain idx = true.
Proof.
  unfold in_graph. simpl. intros Hidx.
  assert (Hcases : idx = 0 \/ idx = 1 \/ idx = 2) by lia.
  destruct Hcases as [E | [E | E]]; subst idx; reflexivity.
Qed.

Lemma PatternMatch_terminates_witness :
  (size chain <= 3)%nat
  /\ PatternMatch_fuel (at_least 2 GENERAL) chain 3
     = PatternMatch (at_least 2 GENERAL) chain.
Proof.
  split; [simpl; lia |].
  apply (proj2 (PatternMatch_terminates (at_least 2 GENERAL) chain) 3%nat).
  simpl. lia.
Defined.

Lemma PatternMatch_throws_only_witness :
  PatternMatch (at_least 2 CONNECTED_SUBGRAPH) dangling_pair = Throw out_of_range
  /\ ((out_of_range = out_of_range
       /\ pattern_match_type_ (at_least 2 CONNECTED_SUBGRAPH) = CONNECTED_SUBGRAPH
       /\ dangling dangling_pair)
      \/ (out_of_range = not_implemented
          /\ pattern_match_type_ (at_least 2 CONNECTED_SUBGRAPH) = OTHER_MATCH_TYPE)).
Proof.
  split; [reflexivity |].
  apply (PatternMatch_throws_only (at_least 2 CONNECTED_SUBGRAPH) dangling_pair
           out_of_range).
  reflexivity.
Defined.

Lemma PatternMatch_returns_witness :
  closed chain
  /\ exists matches, PatternMatch (at_least 2 CONNECTED_SUBGRAPH) chain = Ok matches.
Proof.
  split; [exact chain_closed |].
  apply (PatternMatch_returns (at_least 2 CONNECTED_SUBGRAPH) chain).
  right. right. split; [reflexivity | exact chain_closed].
Defined.

Lemma PatternMatch_nothing_accepted_witness :
  PatternMatch (rejecting CONNECTED_SUBGRAPH) dangling_pair = Ok [].
Proof.
  apply (PatternMatch_nothing_accepted (rejecting CONNECTED_SUBGRAPH) dangling_pair).
  intros idx _. reflexivity.
Defined.

Lemma PatternMatch_unknown_strategy_witness :
  PatternMatch (at_least 2 OTHER_MATCH_TYPE) chain = Throw not_implemented.
Proof.
  apply (PatternMatch_unknown_strategy (at_least 2 OTHER_MATCH_TYPE) chain 0).
  - reflexivity.
  - unfold in_graph. simpl. lia.
  - reflexivity.
Defined.

Lemma PatternMatch_misses_nothing_witness :
  PatternMatch (at_least 2 GENERAL) chain = Ok [[0; 1; 2]]
  /\ exists tl, In (0 :: tl) [[0; 1; 2]] /\ Nat.le (length [0; 1]) (length (0 :: tl)).
Proof.
  split; [reflexivity |].
  apply (PatternMatch_misses_nothing (at_least 2 GENERAL) chain [[0; 1; 2]] 0
           [false; false; false] [] [0; 1]).
  - reflexivity.
  - simpl. lia.
  - reflexivity.
  - split; reflexivity.
  - apply (extends_step (at_least 2 GENERAL) chain [false; false; false] [0] [0] 1).
    + apply extends_refl.
    + split; [reflexivity |]. split; [reflexivity |].
      unfold strategy_candidate. simpl. lia.
  - reflexivity.
Defined.

Lemma PatternMatch_covers_witness :
  PatternMatch (singles CONNECTED_SUBGRAPH) chain = Ok [[0]; [1]; [2]]
  /\ In 1 (concat [[0]; [1]; [2]]).
Proof.
  split; [reflexivity |].
  apply (PatternMatch_covers (singles CONNECTED_SUBGRAPH) chain [[0]; [1]; [2]] 1).
  - reflexivity.
  - unfold in_graph. simpl. lia.
  - reflexivity.
  - reflexivity.
Defined.

Lemma PatternMatch_size_bound_witness :
  PatternMatch (singles CONNECTED_SUBGRAPH) chain = Ok [[0]; [1]; [2]]
  /\ Nat.le (length (concat [[0]; [1]; [2]])) (size chain).
Proof.
  split; [reflexivity |].
  apply (PatternMatch_size_bound (singles CONNECTED_SUBGRAPH) chain [[0]; [1]; [2]]).
  reflexivity.
Defined.

Lemma PatternMatch_commits_witness :
  PatternMatch (singles CONNECTED_SUBGRAPH) chain = Ok [[0]; [1]; [2]]
  /\ exists matched found rest,
       PatternMatch_scan (singles CONNECTED_SUBGRAPH) chain (S (size chain)) 1
       = Ok (matched, found)
       /\ [[0]; [1]; [2]] = found ++ rest
       /\ Forall (fun m => hd 0 m < 1) found
       /\ Forall (fun m => 1 <= hd 0 m) rest.
Proof.
  split; [reflexivity |].
  apply (PatternMatch_commits (singles CONNECTED_SUBGRAPH) chain [[0]; [1]; [2]] 1).
  - reflexivity.
  - simpl. lia.
Defined.

Lemma PatternMatchHelper_best_grows_witness :
  PatternMatchHelper (at_least 2 GENERAL) chain [false; false; false] 3
    (mkState [1] [] [])
  = Ok (mkState [1] [1; 0; 2] [[1]; [1; 0]; [1; 0; 2]; [1; 2]; [1; 2; 0]])
  /\ ([1; 0; 2] = []
      \/ (ValidatorRule (at_least 2 GENERAL) chain [1; 0; 2] = true
          /\ Nat.lt (length (@nil Z)) (length [1; 0; 2])
          /\ extends (at_least 2 GENERAL) chain [false; false; false] [1] [1; 0; 2])).
Proof.
  split; [reflexivity |].
  apply (PatternMatchHelper_best_grows (at_least 2 GENERAL) chain
           [false; false; false] 3%nat (mkState [1] [] [])
           (mkState [1] [1; 0; 2] [[1]; [1; 0]; [1; 0; 2]; [1; 2]; [1; 2; 0]])).
  reflexivity.
Defined.

Lemma ReplacePattern_trace_witness :
  invoked (ReplacePattern failing_on_1 [[0]; [1]; [2]] chain) = [[0]] ++ [1] :: []
  /\ (forall idx, In idx [1] ->
                  is_node_active (rewritten failing_on_1 chain [[0]]) idx = true)
  /\ fst (ReplaceRule failing_on_1 [1] (rewritten failing_on_1 chain [[0]])) = false.
Proof.
  assert (Hinv : invoked (ReplacePattern failing_on_1 [[0]; [1]; [2]] chain)
                 = [[0]] ++ [1] :: []) by reflexivity.
  split; [exact Hinv |].
  exact (proj2 (ReplacePattern_trace failing_on_1 [[0]; [1]; [2]] chain)
           [[0]] [1] [] Hinv).
Defined.

Lemma ReplacePattern_rewrites_once_witness :
  invoked (ReplacePattern (singles GENERAL) [[0; 1]; [1; 2]; [2]] chain)
  = [[0; 1]] ++ [2] :: []
  /\ forall m' x, In m' [[0; 1]] -> In x m' -> ~ In x [2].
Proof.
  split; [reflexivity |].
  apply (ReplacePattern_rewrites_once (singles GENERAL) [[0; 1]; [1; 2]; [2]] chain
           [[0; 1]] [2] []).
  - intros m g' idx Hin. apply deactivate_members. exact Hin.
  - intros m g' idx Hin. apply deactivate_stays. exact Hin.
  - reflexivity.
Defined.

Lemma ReplacePattern_applies_all_witness :
  NoDup (concat [[0]; [1; 2]])
  /\ ReplacePattern (keeping GENERAL) [[0]; [1; 2]] chain
     = mkOutcome (rewritten (keeping GENERAL) chain [[0]; [1; 2]]) None [[0]; [1; 2]].
Proof.
  assert (Hnd : NoDup (concat [[0]; [1; 2]])).
  { simpl. repeat constructor; simpl; lia. }
  split; [exact Hnd |].
  apply (ReplacePattern_applies_all (keeping GENERAL) [[0]; [1; 2]] chain).
  - intros m g' idx _. reflexivity.
  - intros m g'. reflexivity.
  - exact Hnd.
  - intros idx Hidx. simpl in Hidx.
    destruct Hidx as [E | [E | [E | []]]]; subst idx; reflexivity.
Defined.

Lemma ApplyTo_nothing_accepted_witness :
  ApplyTo (rejecting GENERAL) chain = Ok chain.
Proof.
  change (Ok chain) with (GetNetDef chain).
  apply (ApplyTo_nothing_accepted (rejecting GENERAL) chain chain).
  - reflexivity.
  - intros idx _. reflexivity.
Defined.

Lemma ApplyTo_applies_all_witness :
  PatternMatch (keeping CONNECTED_SUBGRAPH) chain = Ok [[0]; [1]; [2]]
  /\ ApplyTo (keeping CONNECTED_SUBGRAPH) chain
     = Ok (rewritten (keeping CONNECTED_SUBGRAPH) chain [[0]; [1]; [2]]).
Proof.
  split; [reflexivity |].
  change (Ok (rewritten (keeping CONNECTED_SUBGRAPH) chain [[0]; [1]; [2]]))
    with (GetNetDef (rewritten (keeping CONNECTED_SUBGRAPH) chain [[0]; [1]; [2]])).
  apply (ApplyTo_applies_all (keeping CONNECTED_SUBGRAPH) chain chain [[0]; [1]; [2]]).
  - reflexivity.
  - reflexivity.
  - intros m g' idx _. reflexivity.
  - intros m g'. reflexivity.
  - exact chain_all_active.
Defined.

Lemma ApplyTo_throws_only_witness :
  ApplyTo (at_least 2 CONNECTED_SUBGRAPH) dangling_pair = Throw out_of_range
  /\ (Graph_of_NetDef dangling_pair = Throw out_of_range
      \/ exists g,
           Graph_of_NetDef dangling_pair = Ok g
           /\ (search_failure (at_least 2 CONNECTED_SUBGRAPH) g out_of_range
               \/ out_of_range = replace_failed
               \/ exists g', GetNetDef g' = @Throw (list Node) out_of_range)).
Proof.
  split; [reflexivity |].
  apply (ApplyTo_throws_only (at_least 2 CONNECTED_SUBGRAPH) dangling_pair
           out_of_range).
  reflexivity.
Defined.

Lemma ApplyTo_replace_failed_witness :
  PatternMatch failing_on_1 chain = Ok [[0]; [1]; [2]]
  /\ ApplyTo failing_on_1 chain = Throw replace_failed.
Proof.
  split; [reflexivity |].
  apply (ApplyTo_replace_failed failing_on_1 chain chain [[0]; [1]; [2]]).
  - reflexivity.
  - reflexivity.
  - discriminate.
Defined.
